(** * MemoEditor / TipTapEditor: markdown export, import and the line adapter

    A shallow embedding of [TipTapEditor.tsx] (markdown <-> editor glue, the
    [onUpdate] handler, the [editorActions] imperative handle) and of the
    bold button of [MarkdownToolbar.tsx].

    JavaScript strings are sequences of UTF-16 code units; the regular
    expressions of the source carry no [u] flag, hence they work on code
    units.  TipTap, marked and turndown are third-party collaborators: they
    are the fields of the class [Collaborators] below. *)

From Stdlib Require Import List NArith ZArith Bool String Ascii Lia.
Import ListNotations.

Local Open Scope N_scope.

(** ** JavaScript strings *)

Module JS.

Definition char16 := N.
Definition jsstring := list char16.

(** A literal of the source (ASCII only) as code units. *)
Definition lit (s : string) : jsstring :=
  List.map N_of_ascii (list_ascii_of_string s).

(** The character class [\s] of ECMAScript: WhiteSpace and LineTerminator. *)
Definition is_space (c : char16) : bool :=
  match c with
  | 9 | 10 | 11 | 12 | 13 | 32 | 160 => true
  | 5760 | 8232 | 8233 | 8239 | 8287 | 12288 | 65279 => true
  | _ => (8192 <=? c) && (c <=? 8202)
  end.

Definition star : char16 := 42.
Definition tilde : char16 := 126.
Definition newline : char16 := 10.

(** Length of the longest run of [\s] at the head of [s] (greedy [\s*]). *)
Fixpoint count_ws (s : jsstring) : nat :=
  match s with
  | c :: s' => if is_space c then S (count_ws s') else O
  | [] => O
  end.

Fixpoint starts_with (d s : jsstring) : bool :=
  match d, s with
  | [], _ => true
  | x :: d', y :: s' => (x =? y) && starts_with d' s'
  | _ :: _, [] => false
  end.

(** A regular expression is modelled by its matcher at the head of a
    string: [Some n] when it matches there, [n] being the length of the
    match (what [RegExp.prototype.exec] reports at a fixed [lastIndex]). *)
Definition matcher := jsstring -> option nat.

(** [/D\s+/] for a literal delimiter [D]: the delimiter, then a greedy,
    non-empty run of white space. *)
Definition match_after (d : jsstring) : matcher := fun s =>
  if starts_with d s then
    match count_ws (skipn (List.length d) s) with
    | O => None
    | S k => Some (List.length d + S k)%nat
    end
  else None.

(** [D] after a run of [k], [k - 1], ..., 1 characters of [s]: the first
    length that works, with the length of the whole match. *)
Fixpoint ws_then (d : jsstring) (k : nat) (s : jsstring) : option nat :=
  match k with
  | O => None
  | S k' =>
      if starts_with d (skipn k s) then Some (k + List.length d)%nat
      else ws_then d k' s
  end.

(** [/\s+D/]: a non-empty run of white space, then the delimiter.  The
    run is greedy: the longest one is tried first, then the matcher gives
    characters back one by one. *)
Definition match_before (d : jsstring) : matcher := fun s =>
  ws_then d (count_ws s) s.

(** [String.prototype.replace] with a global regular expression and a
    replacement string without [$] patterns: a scan from the left; at a
    match the replacement is emitted and the scan resumes after the match
    ([skip] counts the characters of the match still to be passed over), an
    empty match emits the replacement and copies one character, elsewhere
    the character is copied. *)
Fixpoint replace_go (m : matcher) (r : jsstring) (skip : nat) (s : jsstring)
  : jsstring :=
  match s with
  | [] => match skip, m [] with
          | O, Some _ => r
          | _, _ => []
          end
  | c :: s' =>
      match skip with
      | S k => replace_go m r k s'
      | O =>
          match m s with
          | Some (S k) => r ++ replace_go m r k s'
          | Some O => r ++ c :: replace_go m r O s'
          | None => c :: replace_go m r O s'
          end
      end
  end.

Definition replace (m : matcher) (r : jsstring) (s : jsstring) : jsstring :=
  replace_go m r O s.

(** [String.prototype.split] with a one-character separator: never empty,
    [split] of the empty string is one empty piece. *)
Fixpoint split (sep : char16) (s : jsstring) : list jsstring :=
  match s with
  | [] => [[]]
  | c :: s' =>
      if c =? sep then [] :: split sep s'
      else match split sep s' with
           | l :: ls => (c :: l) :: ls
           | [] => [[c]]
           end
  end.

(** A JavaScript array of strings; [None] is a hole (or [undefined]). *)
Definition jsarray := list (option jsstring).

Definition of_list (l : list jsstring) : jsarray := List.map Some l.

(** [a[i]] for an integer [i]: [undefined] off the array. *)
Definition get (a : jsarray) (i : Z) : option jsstring :=
  if (i <? 0)%Z then None
  else match nth_error a (Z.to_nat i) with
       | Some (Some s) => Some s
       | _ => None
       end.

(** [x ?? d] at type string. *)
Definition nullish (x : option jsstring) (d : jsstring) : jsstring :=
  match x with Some s => s | None => d end.

Fixpoint set_nat (a : jsarray) (i : nat) (v : jsstring) : jsarray :=
  match i, a with
  | O, [] => [Some v]
  | O, _ :: a' => Some v :: a'
  | S k, [] => None :: set_nat [] k v
  | S k, x :: a' => x :: set_nat a' k v
  end.

(** An integer from [2^32 - 1] on is no array index. *)
Definition array_limit : Z := 4294967295.

(** [a[i] = v] for an integer [i].  Inside the array the element is
    replaced (an array has fewer than [2^32 - 1] elements, an index inside
    it is an array index).  Past the end, an array index grows the array
    and leaves holes.  Any other integer, negative or from [2^32 - 1] on,
    names an ordinary property: the elements stay as they are, and [join]
    does not see the property. *)
Definition set (a : jsarray) (i : Z) (v : jsstring) : jsarray :=
  if (i <? 0)%Z then a
  else if (i <? Z.of_nat (List.length a))%Z then set_nat a (Z.to_nat i) v
  else if (i <? array_limit)%Z then set_nat a (Z.to_nat i) v
  else a.

(** [Array.prototype.join]: holes and [undefined] print as the empty
    string. *)
Fixpoint join (sep : jsstring) (a : jsarray) : jsstring :=
  match a with
  | [] => []
  | [x] => nullish x []
  | x :: a' => nullish x [] ++ sep ++ join sep a'
  end.

End JS.

Import JS.

(** ** Completions and the third-party collaborators *)

(** How a JavaScript call completes: normally, or abruptly with a thrown
    value. *)
Inductive completion (X A : Type) : Type :=
| Normal (a : A)
| Throw (x : X).
Arguments Normal {X A} a.
Arguments Throw {X A} x.

(** What the component gets from TipTap (the editor instance with its
    ProseMirror state), from marked and from turndown.  Nothing of it is
    code of the component.  Reading the editor and running one of its
    commands complete normally (a command answers with a boolean, which the
    source drops); the two converters may throw.  Positions are integers of
    ProseMirror's coordinate space. *)
Class Collaborators : Type := {
  exn : Type;
  editor_state : Type;
  (* editor.getHTML() *)
  getHTML : editor_state -> jsstring;
  (* editor.state.doc.textContent *)
  textContent : editor_state -> jsstring;
  (* editor.state.selection.{from,to,anchor} *)
  selection_from : editor_state -> Z;
  selection_to : editor_state -> Z;
  selection_anchor : editor_state -> Z;
  (* editor.state.doc.textBetween(from, to) *)
  textBetween : editor_state -> Z -> Z -> jsstring;
  (* editor.state.doc.resolve(pos).start(depth) *)
  resolve_start : editor_state -> Z -> nat -> Z;
  (* editor.commands.* and the commands of editor.chain() *)
  cmd_setContent : jsstring -> editor_state -> editor_state;
  cmd_focus : editor_state -> editor_state;
  cmd_insertContent : jsstring -> editor_state -> editor_state;
  cmd_deleteRange : Z -> Z -> editor_state -> editor_state;
  cmd_setTextSelection : Z -> Z -> editor_state -> editor_state;
  cmd_toggleBold : editor_state -> editor_state;
  (* turndownService.turndown(html), with the rules added at load time *)
  turndown : jsstring -> completion exn jsstring;
  (* marked.parse(markdown, { breaks: true, gfm: true }) *)
  marked_parse : jsstring -> completion exn jsstring
}.

(** The reference the component holds: [useEditor] gives [null] until the
    instance exists. *)
Variant Editor : Set := TheEditor.

Section Component.

Context {C : Collaborators}.

(** Calls that leave the component, in the order they are made. *)
Inductive event : Type :=
| Turndown (html : jsstring)
| MarkedParse (markdown : jsstring)
| ConsoleError (msg : string) (error : exn)
| ContentChange (markdown : jsstring).

Record World : Type := mkWorld {
  tiptap : editor_state;
  trace : list event
}.

Definition emit (ev : event) (w : World) : World :=
  mkWorld (tiptap w) (trace w ++ [ev]).

(** State and exceptions: what was done before a throw stays done. *)
Definition M (A : Type) : Type := World -> completion exn A * World.

Definition ret {A} (a : A) : M A := fun w => (Normal a, w).

Definition bind {A B} (m : M A) (k : A -> M B) : M B := fun w =>
  match m w with
  | (Normal a, w') => k a w'
  | (Throw x, w') => (Throw x, w')
  end.

Definition try_catch {A} (body : M A) (handler : exn -> M A) : M A := fun w =>
  match body w with
  | (Normal a, w') => (Normal a, w')
  | (Throw x, w') => handler x w'
  end.

Definition read {A} (f : editor_state -> A) : M A := fun w =>
  (Normal (f (tiptap w)), w).

Definition command (c : editor_state -> editor_state) : M unit := fun w =>
  (Normal tt, mkWorld (c (tiptap w)) (trace w)).

Definition call_turndown (html : jsstring) : M jsstring := fun w =>
  (turndown html, emit (Turndown html) w).

Definition call_marked_parse (markdown : jsstring) : M jsstring := fun w =>
  (marked_parse markdown, emit (MarkedParse markdown) w).

Definition console_error (msg : string) (error : exn) : M unit := fun w =>
  (Normal tt, emit (ConsoleError msg error) w).

(** The prop [onContentChange]. *)
Definition handleContentChangeCallback (markdown : jsstring) : M unit :=
  fun w => (Normal tt, emit (ContentChange markdown) w).

Notation "x <- m ;; k" := (bind m (fun x => k))
  (at level 61, m at next level, right associativity).
Notation "m ;;; k" := (bind m (fun _ => k))
  (at level 61, right associativity).

(** *** Markdown <-> editor *)

Definition getMarkdownFromEditor (editor : option Editor) : M jsstring :=
  match editor with
  | None => ret []
  | Some _ =>
      try_catch
        (html <- read getHTML ;;
         markdown <- call_turndown html ;;
         let markdown := replace (match_after (lit "**")) (lit "**") markdown in
         let markdown := replace (match_before (lit "**")) (lit "**") markdown in
         let markdown := replace (match_after (lit "*")) (lit "*") markdown in
         let markdown := replace (match_before (lit "*")) (lit "*") markdown in
         let markdown := replace (match_after (lit "~~")) (lit "~~") markdown in
         let markdown := replace (match_before (lit "~~")) (lit "~~") markdown in
         ret markdown)
        (fun error =>
           console_error "Error serializing to markdown:" error ;;;
           read textContent)
  end.

Definition setMarkdownToEditor (editor : option Editor) (markdown : jsstring)
  : M unit :=
  match editor with
  | None => ret tt
  | Some _ =>
      try_catch
        (html <- call_marked_parse markdown ;;
         command (cmd_setContent html))
        (fun error =>
           console_error "Error parsing markdown:" error ;;;
           command (cmd_setContent markdown))
  end.

(** *** The component *)

(** [useEditor({ onUpdate })]: TipTap passes its instance. *)
Definition onUpdate (editor : Editor) : M unit :=
  markdown <- getMarkdownFromEditor (Some editor) ;;
  handleContentChangeCallback markdown.

Definition jsstring_eqb (a b : jsstring) : bool :=
  if list_eq_dec N.eq_dec a b then true else false.

(** The effect on [initialContent]; [None] is [undefined]. *)
Definition initialContent_effect (editor : option Editor)
  (initialContent : option jsstring) : M unit :=
  match editor, initialContent with
  | Some _, Some content =>
      currentMarkdown <- getMarkdownFromEditor editor ;;
      if jsstring_eqb currentMarkdown content then ret tt
      else setMarkdownToEditor editor content
  | _, _ => ret tt
  end.

(** A parameter with the default value [""]. *)
Definition or_empty (x : option jsstring) : jsstring :=
  match x with Some s => s | None => [] end.

(** *** editorActions *)

Definition focus (editor : option Editor) : M unit :=
  match editor with
  | None => ret tt
  | Some _ => command cmd_focus
  end.

Definition scrollToCursor (editor : option Editor) : M unit :=
  match editor with
  | None => ret tt
  | Some _ => command cmd_focus
  end.

Definition insertText (editor : option Editor)
  (content prefix suffix : option jsstring) : M unit :=
  match editor with
  | None => ret tt
  | Some _ =>
      let markdown := or_empty prefix ++ or_empty content ++ or_empty suffix in
      command (cmd_insertContent markdown)
  end.

Definition removeText (editor : option Editor) (_start _length : Z) : M unit :=
  match editor with
  | None => ret tt
  | Some _ =>
      from <- read selection_from ;;
      to <- read selection_to ;;
      command (cmd_deleteRange from to)
  end.

Definition setContent (editor : option Editor) (text : jsstring) : M unit :=
  setMarkdownToEditor editor text.

Definition getContent (editor : option Editor) : M jsstring :=
  getMarkdownFromEditor editor.

Definition getSelectedContent (editor : option Editor) : M jsstring :=
  match editor with
  | None => ret []
  | Some _ =>
      from <- read selection_from ;;
      to <- read selection_to ;;
      read (fun e => textBetween e from to)
  end.

Definition getCursorPosition (editor : option Editor) : M Z :=
  match editor with
  | None => ret 0%Z
  | Some _ => read selection_anchor
  end.

(** [endPos] is optional: [None] is [undefined] (a NaN, which the source
    treats alike, is no integer). *)
Definition setCursorPosition (editor : option Editor) (startPos : Z)
  (endPos : option Z) : M unit :=
  match editor with
  | None => ret tt
  | Some _ =>
      let endPosition := match endPos with Some p => p | None => startPos end in
      command (cmd_setTextSelection startPos endPosition)
  end.

Definition getCursorLineNumber (editor : option Editor) : M Z :=
  match editor with
  | None => ret 0%Z
  | Some _ =>
      anchor <- read selection_anchor ;;
      resolvedPos_start <- read (fun e => resolve_start e anchor 1) ;;
      ret (resolvedPos_start - 1)%Z
  end.

Definition getLine (editor : option Editor) (lineNumber : Z) : M jsstring :=
  match editor with
  | None => ret []
  | Some _ =>
      markdown <- getMarkdownFromEditor editor ;;
      let lines := of_list (split newline markdown) in
      ret (nullish (get lines lineNumber) [])
  end.

(** [lines.join] is taken to succeed here; [setLine_within] below adds
    the check of the engine on the length of the joined string. *)
Definition setLine (editor : option Editor) (lineNumber : Z) (text : jsstring)
  : M unit :=
  match editor with
  | None => ret tt
  | Some _ =>
      markdown <- getMarkdownFromEditor editor ;;
      let lines := of_list (split newline markdown) in
      let lines := set lines lineNumber text in
      setMarkdownToEditor editor (join [newline] lines) ;;;
      command cmd_focus
  end.

(** *** MarkdownToolbar: the bold button *)

(** [editor.chain().focus().toggleBold().run()]; the toolbar renders
    nothing while the editor is [null]. *)
Definition bold_onClick (editor : Editor) : M unit :=
  command (fun e => cmd_toggleBold (cmd_focus e)).

End Component.

(** ** Vocabulary of the statements *)

(** [deletes_ws s t]: [t] is [s] with some white-space characters deleted
    and nothing else changed. *)
Inductive deletes_ws : jsstring -> jsstring -> Prop :=
| dw_nil : deletes_ws [] []
| dw_keep c s t : deletes_ws s t -> deletes_ws (c :: s) (c :: t)
| dw_drop c s t : is_space c = true -> deletes_ws s t -> deletes_ws (c :: s) t.

(** A matcher reports the length of a non-empty piece of its input. *)
Definition well_behaved (m : matcher) : Prop :=
  forall s n, m s = Some n -> (0 < n <= List.length s)%nat.

(** [t] occurs in [s] as a contiguous piece. *)
Definition contains (t s : jsstring) : Prop :=
  exists a b, s = a ++ t ++ b.

(** Some white-space character stands immediately before a [*]. *)
Fixpoint ws_before_star (s : jsstring) : bool :=
  match s with
  | c :: s' =>
      match s' with
      | d :: _ => (is_space c && (d =? star)) || ws_before_star s'
      | [] => false
      end
  | [] => false
  end.

Definition head_is_star (s : jsstring) : bool :=
  match s with
  | c :: _ => c =? star
  | [] => false
  end.

Definition has_newline (s : jsstring) : bool :=
  existsb (fun c => c =? newline) s.

(** The six rules of the export, as the spec lists them: white space after
    and before [**], [*] and [~~], in the order of application. *)
Definition cleanup_rules : list (matcher * jsstring) :=
  [ (match_after (lit "**"), lit "**"); (match_before (lit "**"), lit "**");
    (match_after (lit "*"), lit "*");   (match_before (lit "*"), lit "*");
    (match_after (lit "~~"), lit "~~"); (match_before (lit "~~"), lit "~~") ].

Definition cleanup (markdown : jsstring) : jsstring :=
  fold_left (fun s rule => replace (fst rule) (snd rule) s) cleanup_rules
    markdown.

(** The n-th line of a split text, the empty string where there is none. *)
Definition line_at (lines : list jsstring) (n : Z) : jsstring :=
  if (n <? 0)%Z then [] else nth (Z.to_nat n) lines [].

(** Lines joined with single newlines. *)
Fixpoint unlines (lines : list jsstring) : jsstring :=
  match lines with
  | [] => []
  | [l] => l
  | l :: ls => l ++ newline :: unlines ls
  end.

(** Element [n] of a list replaced. *)
Definition with_line (lines : list jsstring) (n : nat) (text : jsstring)
  : list jsstring :=
  firstn n lines ++ text :: skipn (S n) lines.

Section Pipeline.

Context {C : Collaborators}.

(** What the export returns and leaves behind, written out. *)
Definition exported_text (w : World) : jsstring :=
  match turndown (getHTML (tiptap w)) with
  | Normal markdown => cleanup markdown
  | Throw _ => textContent (tiptap w)
  end.

Definition exported_world (w : World) : World :=
  match turndown (getHTML (tiptap w)) with
  | Normal _ => emit (Turndown (getHTML (tiptap w))) w
  | Throw x =>
      emit (ConsoleError "Error serializing to markdown:" x)
        (emit (Turndown (getHTML (tiptap w))) w)
  end.

(** What the import of [markdown] leaves behind, written out. *)
Definition imported_world (markdown : jsstring) (w : World) : World :=
  match marked_parse markdown with
  | Normal html =>
      mkWorld (cmd_setContent html (tiptap w))
        (trace w ++ [MarkedParse markdown])
  | Throw x =>
      mkWorld (cmd_setContent markdown (tiptap w))
        (trace w ++ [MarkedParse markdown;
                     ConsoleError "Error parsing markdown:" x])
  end.

Definition focused_world (w : World) : World :=
  mkWorld (cmd_focus (tiptap w)) (trace w).

(** The markdown texts handed to the content-change callback so far. *)
Fixpoint content_changes (t : list event) : list jsstring :=
  match t with
  | [] => []
  | ContentChange markdown :: t' => markdown :: content_changes t'
  | _ :: t' => content_changes t'
  end.

(** The serializer was called while [m] ran from [w]. *)
Definition calls_serializer {A} (m : M A) (w : World) : Prop :=
  exists html,
    In (Turndown html) (skipn (List.length (trace w)) (trace (snd (m w)))).

End Pipeline.

(** ** Two small stand-ins for the collaborators

    [plain]: the editor state is the content last set, both converters are
    the identity.  [failing]: the same editor, both converters throw. *)

Definition plain : Collaborators := {|
  exn := unit;
  editor_state := jsstring;
  getHTML := fun e => e;
  textContent := fun e => e;
  selection_from := fun _ => 0%Z;
  selection_to := fun _ => 0%Z;
  selection_anchor := fun _ => 0%Z;
  textBetween := fun _ _ _ => [];
  resolve_start := fun _ _ _ => 1%Z;
  cmd_setContent := fun s _ => s;
  cmd_focus := fun e => e;
  cmd_insertContent := fun s e => e ++ s;
  cmd_deleteRange := fun _ _ e => e;
  cmd_setTextSelection := fun _ _ e => e;
  cmd_toggleBold := fun e => e;
  turndown := fun html => Normal html;
  marked_parse := fun markdown => Normal markdown
|}.

Definition failing : Collaborators := {|
  exn := unit;
  editor_state := jsstring;
  getHTML := fun e => e;
  textContent := fun e => e;
  selection_from := fun _ => 0%Z;
  selection_to := fun _ => 0%Z;
  selection_anchor := fun _ => 0%Z;
  textBetween := fun _ _ _ => [];
  resolve_start := fun _ _ _ => 1%Z;
  cmd_setContent := fun s _ => s;
  cmd_focus := fun e => e;
  cmd_insertContent := fun s e => e ++ s;
  cmd_deleteRange := fun _ _ e => e;
  cmd_setTextSelection := fun _ _ e => e;
  cmd_toggleBold := fun e => e;
  turndown := fun _ => Throw tt;
  marked_parse := fun _ => Throw tt
|}.

(** An editor of [plain] or [failing] holding [content], nothing traced. *)
Definition holding (C : Collaborators) (content : @editor_state C)
  : @World C :=
  mkWorld content [].

(** The text of three lines [a], [b], [c]. *)
Definition three_lines : jsstring := [97; 10; 98; 10; 99].

(** ** The rules added to turndown

    The replacement callbacks of the rules [strikethrough], [italic] and
    [taskListItems].  (Their filters compare [nodeName.toUpperCase()], a
    Unicode case mapping, which is not modelled.) *)

(** [String.prototype.trim]: it strips WhiteSpace and LineTerminator, the
    characters of [\s], from both ends. *)
Fixpoint trim_start (s : jsstring) : jsstring :=
  match s with
  | c :: s' => if is_space c then trim_start s' else s
  | [] => []
  end.

Definition trim_end (s : jsstring) : jsstring := rev (trim_start (rev s)).

Definition trim (s : jsstring) : jsstring := trim_end (trim_start s).

Definition strikethrough_replacement (content : jsstring) : jsstring :=
  lit "~~" ++ content ++ lit "~~".

(** The empty string is falsy. *)
Definition italic_replacement (content : jsstring) : jsstring :=
  let trimmed := trim content in
  match trimmed with
  | [] => content
  | _ :: _ => lit "*" ++ trimmed ++ lit "*"
  end.

(** [checked] is the truth value of [checkbox?.checked]. *)
Definition taskListItems_replacement (content : jsstring) (checked : bool)
  : jsstring :=
  let isChecked := if checked then lit "x" else lit " " in
  let text := trim content in
  lit "- [" ++ isChecked ++ lit "] " ++ text ++ [newline].

(** ** More vocabulary *)

(** Some character with [p] stands immediately before one with [q]. *)
Fixpoint adjacent (p q : char16 -> bool) (s : jsstring) : bool :=
  match s with
  | c :: s' =>
      match s' with
      | d :: _ => (p c && q d) || adjacent p q s'
      | [] => false
      end
  | [] => false
  end.

Definition is_star (c : char16) : bool := c =? star.
Definition is_tilde (c : char16) : bool := c =? tilde.

Definition star_before_ws : jsstring -> bool := adjacent is_star is_space.
Definition tilde_before_ws : jsstring -> bool := adjacent is_tilde is_space.
Definition ws_before_tilde : jsstring -> bool := adjacent is_space is_tilde.

Definition head_is_space (s : jsstring) : bool :=
  match s with
  | c :: _ => is_space c
  | [] => false
  end.

(** The first character exists and has [p]. *)
Definition head_sat (p : char16 -> bool) (s : jsstring) : bool :=
  match s with
  | c :: _ => p c
  | [] => false
  end.

Definition ends_with_star (s : jsstring) : bool :=
  head_is_star (rev s).

Definition ends_with_space (s : jsstring) : bool :=
  head_is_space (rev s).

(** No white space at all, and white space only. *)
Definition solid (s : jsstring) : bool :=
  forallb (fun c => negb (is_space c)) s.

Definition blank (s : jsstring) : bool := forallb is_space s.

(** Neither [*] nor [~] occurs. *)
Definition unmarked (s : jsstring) : bool :=
  forallb (fun c => negb (is_star c) && negb (is_tilde c)) s.

(** The matcher fails at every position of [s], the end included. *)
Fixpoint never_matches (m : matcher) (s : jsstring) : Prop :=
  m s = None /\
  match s with
  | [] => True
  | _ :: s' => never_matches m s'
  end.

(** The string a call returned, the empty string if it threw. *)
Definition returned {X} (r : completion X jsstring) : jsstring :=
  match r with
  | Normal s => s
  | Throw _ => []
  end.

(** The indices [0], ..., [n - 1] as the numbers a caller passes. *)
Definition indices (n : nat) : list Z := List.map Z.of_nat (seq 0 n).

Section Handle.

Context {C : Collaborators}.

(** [m] completes normally from [w]. *)
Definition completes {A} (m : M A) (w : World) : Prop :=
  exists a w', m w = (Normal a, w').

(** [m] leaves the document and the selection as they are. *)
Definition keeps_document {A} (m : M A) (w : World) : Prop :=
  tiptap (snd (m w)) = tiptap w.

End Handle.

(** ** The limit of the engine on the length of a string

    An engine refuses to build a string of more than a fixed number of
    code units ([limit]; in V8 on 64 bits, [2^29 - 24]) and throws a
    RangeError ([range_error]) instead.  [setLine] above takes
    [lines.join] to succeed; [setLine_within] is the same function with
    the check of the engine at the join, the one place of the handle
    where short arguments make a long string. *)

Definition v8_string_limit : Z := 536870888.

Section EngineLimit.

Context {C : Collaborators}.

Variable limit : Z.
Variable range_error : exn.

Definition join_within (sep : jsstring) (a : jsarray) : M jsstring :=
  fun w =>
    let s := join sep a in
    if (Z.of_nat (List.length s) <=? limit)%Z then (Normal s, w)
    else (Throw range_error, w).

Definition setLine_within (editor : option Editor) (lineNumber : Z)
  (text : jsstring) : M unit :=
  match editor with
  | None => ret tt
  | Some _ =>
      bind (getMarkdownFromEditor editor) (fun markdown =>
      let lines := of_list (split newline markdown) in
      let lines := set lines lineNumber text in
      bind (join_within [newline] lines) (fun joined =>
      bind (setMarkdownToEditor editor joined) (fun _ =>
      command cmd_focus)))
  end.

End EngineLimit.

(** ** Facts on the string operations *)


Lemma starts_with_app d s :
  starts_with d s = true -> s = d ++ skipn (List.length d) s.
Proof.
  revert s; induction d as [|x d IH]; intros [|y s] H; simpl in *;
    try reflexivity; try discriminate.
  apply andb_true_iff in H as [Hxy Hd].
  apply N.eqb_eq in Hxy; subst y. f_equal. now apply IH.
Qed.

Lemma starts_with_length d s :
  starts_with d s = true -> (List.length d <= List.length s)%nat.
Proof.
  intros H. apply starts_with_app in H.
  apply (f_equal (@List.length _)) in H. rewrite length_app in H. lia.
Qed.

Lemma count_ws_le s : (count_ws s <= List.length s)%nat.
Proof.
  induction s as [|c s IH]; simpl; [lia|].
  destruct (is_space c); lia.
Qed.

Lemma count_ws_run s :
  forallb is_space (firstn (count_ws s) s) = true.
Proof.
  induction s as [|c s IH]; simpl; [reflexivity|].
  destruct (is_space c) eqn:E; simpl; [|reflexivity].
  now rewrite E, IH.
Qed.

Lemma match_after_well_behaved d : well_behaved (match_after d).
Proof.
  intros s n. unfold match_after.
  destruct (starts_with d s) eqn:Hd; [|discriminate].
  destruct (count_ws _) as [|k] eqn:Hk; [discriminate|].
  intros [= <-]. pose proof (starts_with_length _ _ Hd).
  pose proof (count_ws_le (skipn (List.length d) s)) as Hle.
  rewrite Hk, length_skipn in Hle. lia.
Qed.

Lemma count_ws_firstn j s :
  (j <= count_ws s)%nat -> forallb is_space (firstn j s) = true.
Proof.
  revert s; induction j as [|j IH]; intros [|c s] H; simpl in *;
    try reflexivity; try lia.
  destruct (is_space c); [|lia]. simpl. apply IH. lia.
Qed.

Lemma ws_then_found d k s n :
  ws_then d k s = Some n ->
  exists j, (0 < j <= k)%nat /\ n = (j + List.length d)%nat
            /\ starts_with d (skipn j s) = true.
Proof.
  induction k as [|k IH]; cbn [ws_then]; [discriminate|].
  destruct (starts_with d (skipn (S k) s)) eqn:Hd.
  - intros [= Hn]. exists (S k). split; [lia|]. split; [lia | exact Hd].
  - intros H. destruct (IH H) as (j & Hj & Hn & Hs).
    exists j. split; [lia|]. split; [exact Hn | exact Hs].
Qed.

Lemma match_before_well_behaved d : well_behaved (match_before d).
Proof.
  intros s n H. apply ws_then_found in H as (j & Hj & -> & Hd).
  apply starts_with_length in Hd. rewrite length_skipn in Hd.
  pose proof (count_ws_le s). lia.
Qed.

(** A character of the white-space run is no start of a delimiter that
    begins with a solid character: giving back never succeeds. *)
Lemma starts_with_in_run x d j s :
  is_space x = false -> (j < count_ws s)%nat ->
  starts_with (x :: d) (skipn j s) = false.
Proof.
  intros Hx. revert s; induction j as [|j IH]; intros [|c s] Hj;
    simpl in Hj; try lia.
  - simpl. destruct (is_space c) eqn:Hc; [|lia].
    destruct (x =? c) eqn:E; [|reflexivity].
    apply N.eqb_eq in E; subst c. congruence.
  - simpl skipn. destruct (is_space c); [|lia]. apply IH. lia.
Qed.

Lemma ws_then_short x d k s :
  is_space x = false -> (k < count_ws s)%nat -> ws_then (x :: d) k s = None.
Proof.
  intros Hx. induction k as [|k IH]; intros Hk; [reflexivity|].
  cbn [ws_then]. rewrite (starts_with_in_run x d (S k) s Hx Hk).
  apply IH. lia.
Qed.

Lemma match_before_greedy x d s :
  is_space x = false ->
  match_before (x :: d) s
  = match count_ws s with
    | O => None
    | S k =>
        if starts_with (x :: d) (skipn (S k) s)
        then Some (S k + List.length (x :: d))%nat
        else None
    end.
Proof.
  intros Hx. unfold match_before.
  destruct (count_ws s) as [|k] eqn:Hk; [reflexivity|].
  cbn [ws_then]. destruct (starts_with (x :: d) (skipn (S k) s));
    [reflexivity|].
  apply ws_then_short; [exact Hx | lia].
Qed.

Lemma replace_go_skip m r k s :
  (k <= List.length s)%nat ->
  replace_go m r k s = replace_go m r 0 (skipn k s).
Proof.
  revert s; induction k as [|k IH]; intros s Hk; [reflexivity|].
  destruct s as [|c s]; simpl in *; [lia|].
  apply IH. lia.
Qed.

Lemma replace_nil m r : well_behaved m -> replace m r [] = [].
Proof.
  intros Hm. unfold replace; simpl.
  destruct (m []) as [n|] eqn:E; [|reflexivity].
  apply Hm in E. simpl in E. lia.
Qed.

Lemma replace_hit m r s n :
  well_behaved m -> m s = Some n ->
  replace m r s = r ++ replace m r (skipn n s).
Proof.
  intros Hm E. pose proof (Hm _ _ E) as Hn.
  destruct s as [|c s]; simpl in Hn; [lia|].
  destruct n as [|k]; [lia|].
  unfold replace; simpl. rewrite E. f_equal.
  apply replace_go_skip. lia.
Qed.

Lemma replace_miss m r c s :
  m (c :: s) = None -> replace m r (c :: s) = c :: replace m r s.
Proof.
  intros E. unfold replace; simpl. now rewrite E.
Qed.

(** Induction along the scan of [replace]. *)
Lemma scan_ind (m : matcher) (P : jsstring -> Prop) :
  well_behaved m ->
  P [] ->
  (forall s n, m s = Some n -> P (skipn n s) -> P s) ->
  (forall c s, m (c :: s) = None -> P s -> P (c :: s)) ->
  forall s, P s.
Proof.
  intros Hm Hnil Hhit Hmiss s.
  remember (List.length s) as len eqn:Hlen.
  revert s Hlen. induction len as [len IH] using lt_wf_ind. intros s ->.
  destruct s as [|c s]; [exact Hnil|].
  destruct (m (c :: s)) as [n|] eqn:E.
  - apply (Hhit _ _ E). pose proof (Hm _ _ E) as Hn.
    eapply IH; [|reflexivity]. rewrite length_skipn. lia.
  - apply Hmiss; [exact E|]. eapply IH; [|reflexivity]. simpl; lia.
Qed.

(** *** The substitutions delete white space only *)

Lemma deletes_ws_refl s : deletes_ws s s.
Proof. induction s; constructor; assumption. Qed.

Lemma deletes_ws_app s1 t1 s2 t2 :
  deletes_ws s1 t1 -> deletes_ws s2 t2 -> deletes_ws (s1 ++ s2) (t1 ++ t2).
Proof.
  induction 1; intros H2; simpl; [assumption| |].
  - constructor. now apply IHdeletes_ws.
  - constructor; [assumption|]. now apply IHdeletes_ws.
Qed.

Lemma deletes_ws_run ws : forallb is_space ws = true -> deletes_ws ws [].
Proof.
  induction ws as [|c ws IH]; simpl; intros H; [constructor|].
  apply andb_true_iff in H as [Hc Hws]. constructor; auto.
Qed.

Lemma deletes_ws_trans s t u :
  deletes_ws s t -> deletes_ws t u -> deletes_ws s u.
Proof.
  intros H; revert u; induction H; intros u Hu.
  - assumption.
  - inversion Hu as [| c' s' t' Hrest | c' s' t' Hc Hrest]; subst.
    + constructor; auto.
    + apply dw_drop; auto.
  - apply dw_drop; auto.
Qed.

Lemma match_after_shape d s n :
  match_after d s = Some n ->
  exists ws, s = d ++ ws ++ skipn n s /\ forallb is_space ws = true.
Proof.
  unfold match_after.
  destruct (starts_with d s) eqn:Hd; [|discriminate].
  destruct (count_ws _) as [|k] eqn:Hk; [discriminate|].
  intros [= <-]. apply starts_with_app in Hd.
  set (rest := skipn (List.length d) s) in *.
  exists (firstn (S k) rest). split.
  - assert (Hsk : skipn (List.length d + S k) s = skipn (S k) rest)
      by (unfold rest; rewrite skipn_skipn; f_equal; lia).
    rewrite Hsk, firstn_skipn. exact Hd.
  - rewrite <- Hk. apply count_ws_run.
Qed.

Lemma match_before_shape d s n :
  match_before d s = Some n ->
  exists ws, s = ws ++ d ++ skipn n s /\ forallb is_space ws = true.
Proof.
  intros H. apply ws_then_found in H as (j & Hj & -> & Hd).
  apply starts_with_app in Hd.
  exists (firstn j s). split.
  - assert (Hsk : skipn (j + List.length d) s
                  = skipn (List.length d) (skipn j s))
      by (rewrite skipn_skipn; f_equal; lia).
    rewrite Hsk, <- Hd. symmetry; apply firstn_skipn.
  - apply count_ws_firstn. lia.
Qed.

Lemma replace_after_deletes_ws d s :
  deletes_ws s (replace (match_after d) d s).
Proof.
  pose proof (match_after_well_behaved d) as Hm.
  revert s. apply (scan_ind (match_after d));
    [exact Hm | | intros s n E IH | intros c s E IH].
  - rewrite replace_nil by assumption. constructor.
  - rewrite (replace_hit _ _ _ _ Hm E).
    destruct (match_after_shape _ _ _ E) as (ws & Hs & Hws).
    rewrite Hs at 1. apply deletes_ws_app; [apply deletes_ws_refl|].
    change (replace (match_after d) d (skipn n s))
      with ([] ++ replace (match_after d) d (skipn n s)).
    apply deletes_ws_app; [now apply deletes_ws_run | exact IH].
  - rewrite (replace_miss _ _ _ _ E). now constructor.
Qed.

Lemma replace_before_deletes_ws d s :
  deletes_ws s (replace (match_before d) d s).
Proof.
  pose proof (match_before_well_behaved d) as Hm.
  revert s. apply (scan_ind (match_before d));
    [exact Hm | | intros s n E IH | intros c s E IH].
  - rewrite replace_nil by assumption. constructor.
  - rewrite (replace_hit _ _ _ _ Hm E).
    destruct (match_before_shape _ _ _ E) as (ws & Hs & Hws).
    rewrite Hs at 1.
    change (d ++ replace (match_before d) d (skipn n s))
      with ([] ++ d ++ replace (match_before d) d (skipn n s)).
    apply deletes_ws_app; [now apply deletes_ws_run|].
    apply deletes_ws_app; [apply deletes_ws_refl | exact IH].
  - rewrite (replace_miss _ _ _ _ E). now constructor.
Qed.

Lemma cleanup_deletes_ws s : deletes_ws s (cleanup s).
Proof.
  unfold cleanup, cleanup_rules; simpl.
  repeat (eapply deletes_ws_trans;
          [|first [apply replace_before_deletes_ws
                  |apply replace_after_deletes_ws]]).
  apply deletes_ws_refl.
Qed.

Lemma deletes_ws_split a s o :
  deletes_ws (a ++ s) o ->
  exists o1 o2, o = o1 ++ o2 /\ deletes_ws a o1 /\ deletes_ws s o2.
Proof.
  revert o; induction a as [|c a IH]; simpl; intros o H.
  - exists [], o. repeat split; [constructor | assumption].
  - inversion H as [| c' s' t' Hrest | c' s' t' Hc Hrest]; subst.
    + destruct (IH _ Hrest) as (o1 & o2 & -> & Ha & Hs).
      exists (c :: o1), o2. repeat split; [now constructor | assumption].
    + destruct (IH _ Hrest) as (o1 & o2 & -> & Ha & Hs).
      exists o1, o2. repeat split; [now apply dw_drop | assumption].
Qed.

Lemma deletes_ws_solid t o :
  deletes_ws t o -> forallb (fun c => negb (is_space c)) t = true -> o = t.
Proof.
  induction 1; simpl; intros Hs; [reflexivity| |].
  - apply andb_true_iff in Hs as [_ Hs]. f_equal; auto.
  - rewrite H in Hs. discriminate.
Qed.

Lemma deletes_ws_contains t s o :
  forallb (fun c => negb (is_space c)) t = true ->
  deletes_ws s o -> contains t s -> contains t o.
Proof.
  intros Ht Hd (a & b & ->).
  apply deletes_ws_split in Hd as (o1 & o' & -> & _ & Hd).
  apply deletes_ws_split in Hd as (o2 & o3 & -> & Hd & _).
  apply deletes_ws_solid in Hd; [subst o2|assumption].
  now exists o1, o3.
Qed.

(** *** No white space is left before a star *)


Lemma ws_before_star_cons c s :
  ws_before_star (c :: s)
  = (is_space c && head_is_star s) || ws_before_star s.
Proof.
  destruct s; simpl; [now rewrite andb_false_r | reflexivity].
Qed.

Lemma ws_before_star_skipn n s :
  ws_before_star s = false -> ws_before_star (skipn n s) = false.
Proof.
  revert s; induction n as [|n IH]; intros [|c s] H; simpl; auto.
  apply IH. rewrite ws_before_star_cons in H.
  now apply orb_false_iff in H.
Qed.

Lemma head_is_star_replace m r s :
  well_behaved m -> r <> [] -> head_is_star r = false ->
  head_is_star s = false -> head_is_star (replace m r s) = false.
Proof.
  intros Hm Hr Hstar Hs. destruct s as [|c s].
  - now rewrite replace_nil.
  - destruct (m (c :: s)) as [n|] eqn:E.
    + rewrite (replace_hit _ _ _ _ Hm E).
      destruct r; [contradiction | exact Hstar].
    + rewrite (replace_miss _ _ _ _ E). exact Hs.
Qed.

(** A rule whose replacement is [~~] brings no white space before a star. *)
Lemma tilde_rule_keeps m s :
  well_behaved m ->
  ws_before_star s = false ->
  ws_before_star (replace m [tilde; tilde] s) = false.
Proof.
  intros Hm. revert s.
  apply (scan_ind m (fun s => ws_before_star s = false ->
            ws_before_star (replace m [tilde; tilde] s) = false));
    [exact Hm | | intros s n E IH | intros c s E IH].
  - now rewrite replace_nil.
  - intros Hs. rewrite (replace_hit _ _ _ _ Hm E). simpl app.
    rewrite !ws_before_star_cons. simpl.
    apply IH. now apply ws_before_star_skipn.
  - intros Hs. rewrite (replace_miss _ _ _ _ E).
    rewrite ws_before_star_cons in *.
    apply orb_false_iff in Hs as [Hc Hs].
    rewrite (IH Hs), orb_false_r.
    destruct (is_space c); [simpl in *|reflexivity].
    apply head_is_star_replace; auto. discriminate.
Qed.

Lemma is_space_star_false c : is_space c = true -> (c =? star) = false.
Proof.
  intros Hc. apply N.eqb_neq. intros ->. discriminate Hc.
Qed.

(** After [/\s+\*/g -> "*"] no white space stands before a star. *)
Lemma star_rule_clears s :
  ws_before_star (replace (match_before [star]) [star] s) = false.
Proof.
  pose proof (match_before_well_behaved [star]) as Hm. revert s.
  apply (scan_ind (match_before [star]));
    [exact Hm | | intros s n E IH | intros c s E IH].
  - now rewrite replace_nil.
  - rewrite (replace_hit _ _ _ _ Hm E). simpl app.
    rewrite ws_before_star_cons. exact IH.
  - rewrite (replace_miss _ _ _ _ E), ws_before_star_cons, IH, orb_false_r.
    destruct (is_space c) eqn:Hc; [simpl|reflexivity].
    rewrite (match_before_greedy star [] _ eq_refl) in E.
    simpl count_ws in E. rewrite Hc in E. simpl skipn in E.
    destruct (starts_with [star] (skipn (count_ws s) s)) eqn:Hq;
      [discriminate|clear E].
    destruct s as [|c2 s]; [now rewrite replace_nil|].
    assert (E2 : match_before [star] (c2 :: s) = None).
    { rewrite (match_before_greedy star [] _ eq_refl). simpl count_ws in *.
      destruct (is_space c2); [|reflexivity].
      simpl skipn in *. now rewrite Hq. }
    rewrite (replace_miss _ _ _ _ E2). simpl.
    simpl count_ws in Hq. destruct (is_space c2) eqn:Hc2.
    + now apply is_space_star_false.
    + cbn [starts_with skipn] in Hq. rewrite andb_true_r in Hq.
      now rewrite N.eqb_sym.
Qed.

Lemma cleanup_clears s : ws_before_star (cleanup s) = false.
Proof.
  unfold cleanup, cleanup_rules; simpl fold_left.
  change (lit "~~") with [tilde; tilde]. change (lit "*") with [star].
  apply tilde_rule_keeps; [apply match_before_well_behaved|].
  apply tilde_rule_keeps; [apply match_after_well_behaved|].
  apply star_rule_clears.
Qed.

(** *** Lines: split, join and array update *)

Lemma split_not_nil sep s : split sep s <> [].
Proof.
  destruct s as [|c s]; simpl; [discriminate|].
  destruct (c =? sep); [discriminate|].
  destruct (split sep s); discriminate.
Qed.

Lemma split_pieces s :
  Forall (fun l => has_newline l = false) (split newline s).
Proof.
  induction s as [|c s IH]; simpl; [repeat constructor|].
  destruct (c =? newline) eqn:E; [constructor; [reflexivity | exact IH]|].
  destruct (split newline s) as [|l ls];
    [repeat constructor; simpl; now rewrite E|].
  inversion IH; subst. constructor; [simpl; now rewrite E | assumption].
Qed.

Lemma unlines_cons l ls :
  ls <> [] -> unlines (l :: ls) = l ++ newline :: unlines ls.
Proof. destruct ls; [contradiction | reflexivity]. Qed.

Lemma unlines_split s : unlines (split newline s) = s.
Proof.
  induction s as [|c s IH]; [reflexivity|]. simpl split.
  pose proof (split_not_nil newline s) as Hne.
  destruct (c =? newline) eqn:E.
  - apply N.eqb_eq in E; subst c.
    rewrite unlines_cons by assumption. simpl. now rewrite IH.
  - destruct (split newline s) as [|l ls]; [contradiction|].
    destruct ls as [|l2 ls]; simpl in *; now rewrite <- IH.
Qed.

Lemma split_solid l :
  has_newline l = false -> split newline l = [l].
Proof.
  induction l as [|c l IH]; simpl; [reflexivity|].
  intros H. apply orb_false_iff in H as [Hc Hl].
  now rewrite Hc, (IH Hl).
Qed.



(** [join] sees a hole as the empty string. *)
Lemma join_unlines a :
  join [newline] a = unlines (List.map (fun x => nullish x []) a).
Proof.
  induction a as [|x a IH]; [reflexivity|].
  destruct a as [|y a]; [reflexivity|].
  change (join [newline] (x :: y :: a))
    with (nullish x [] ++ [newline] ++ join [newline] (y :: a)).
  rewrite IH. reflexivity.
Qed.

Lemma join_of_list ls : join [newline] (of_list ls) = unlines ls.
Proof.
  rewrite join_unlines. unfold of_list. rewrite map_map. simpl.
  now rewrite map_id.
Qed.

Lemma set_nat_inside a n v :
  (n < List.length a)%nat ->
  set_nat a n v = firstn n a ++ Some v :: skipn (S n) a.
Proof.
  revert a; induction n as [|n IH]; intros [|x a] H; simpl in *;
    try lia; [reflexivity|].
  f_equal. apply IH. lia.
Qed.

Lemma set_nat_beyond a n v :
  (List.length a <= n)%nat ->
  set_nat a n v = a ++ repeat None (n - List.length a) ++ [Some v].
Proof.
  revert a; induction n as [|n IH]; intros [|x a] H; simpl in *; try lia.
  - reflexivity.
  - f_equal. rewrite (IH []) by (simpl; lia). simpl. now rewrite Nat.sub_0_r.
  - f_equal. apply IH. lia.
Qed.

Lemma get_of_list ls n :
  nullish (get (of_list ls) n) [] = line_at ls n.
Proof.
  unfold get, line_at, of_list. destruct (n <? 0)%Z; [reflexivity|].
  generalize (Z.to_nat n) as k. induction ls as [|l ls IH]; intros [|k]; simpl;
    try reflexivity. apply IH.
Qed.


Lemma set_inside ls n text :
  (0 <= n < Z.of_nat (List.length ls))%Z ->
  set (of_list ls) n text = of_list (with_line ls (Z.to_nat n) text).
Proof.
  intros H. unfold set. destruct (n <? 0)%Z eqn:E; [lia|].
  unfold of_list at 1. rewrite length_map.
  destruct (n <? Z.of_nat (List.length ls))%Z eqn:E2; [|lia].
  unfold of_list, with_line.
  rewrite set_nat_inside by (rewrite length_map; lia).
  rewrite map_app, firstn_map, skipn_map. reflexivity.
Qed.

Lemma set_beyond ls n text :
  (Z.of_nat (List.length ls) <= n < array_limit)%Z ->
  List.map (fun x => nullish x []) (set (of_list ls) n text)
  = ls ++ repeat [] (Z.to_nat n - List.length ls) ++ [text].
Proof.
  intros H. unfold set. destruct (n <? 0)%Z eqn:E; [lia|].
  unfold of_list at 1. rewrite length_map.
  destruct (n <? Z.of_nat (List.length ls))%Z eqn:E2; [lia|].
  destruct (n <? array_limit)%Z eqn:E3; [|lia].
  rewrite set_nat_beyond by (unfold of_list; rewrite length_map; lia).
  unfold of_list. rewrite !map_app, map_map, length_map. simpl.
  rewrite map_id, map_repeat. reflexivity.
Qed.

(** Past the end of the array, an integer that is no array index stores
    nothing. *)
Lemma set_far ls n text :
  (Z.of_nat (List.length ls) <= n)%Z -> (array_limit <= n)%Z ->
  set (of_list ls) n text = of_list ls.
Proof.
  intros H1 H2. unfold set. destruct (n <? 0)%Z eqn:E; [reflexivity|].
  unfold of_list at 1. rewrite length_map.
  destruct (n <? Z.of_nat (List.length ls))%Z eqn:E2; [lia|].
  destruct (n <? array_limit)%Z eqn:E3; [lia | reflexivity].
Qed.

Lemma set_negative ls n text :
  (n < 0)%Z -> set (of_list ls) n text = of_list ls.
Proof.
  intros H. unfold set. apply Z.ltb_lt in H. now rewrite H.
Qed.

(** A joined text has a newline between any two lines. *)
Lemma unlines_length ls :
  (List.length ls <= S (List.length (unlines ls)))%nat.
Proof.
  induction ls as [|l ls IH]; [simpl; lia|].
  destruct ls as [|l2 ls]; [simpl; lia|].
  rewrite unlines_cons by discriminate.
  rewrite length_app. simpl List.length in *. lia.
Qed.

(** ** Facts on the component *)

Section ComponentFacts.

Context {C : Collaborators}.

Lemma getMarkdownFromEditor_some (ed : Editor) (w : World) :
  getMarkdownFromEditor (Some ed) w
  = (Normal (exported_text w), exported_world w).
Proof.
  unfold getMarkdownFromEditor, try_catch, bind, read, call_turndown, ret,
    console_error, exported_text, exported_world.
  destruct (turndown (getHTML (tiptap w))); reflexivity.
Qed.

Lemma setMarkdownToEditor_some (ed : Editor) (markdown : jsstring) (w : World) :
  setMarkdownToEditor (Some ed) markdown w
  = (Normal tt, imported_world markdown w).
Proof.
  unfold setMarkdownToEditor, try_catch, bind, command, call_marked_parse,
    console_error, imported_world, emit.
  destruct (marked_parse markdown); simpl; [reflexivity|].
  now rewrite <- app_assoc.
Qed.

Lemma getLine_some (ed : Editor) (n : Z) (w : World) :
  getLine (Some ed) n w
  = (Normal (line_at (split newline (exported_text w)) n), exported_world w).
Proof.
  unfold getLine, bind. rewrite getMarkdownFromEditor_some.
  unfold ret. now rewrite get_of_list.
Qed.

Lemma setLine_some (ed : Editor) (n : Z) (text : jsstring) (w : World) :
  setLine (Some ed) n text w
  = (Normal tt,
     focused_world
       (imported_world
          (join [newline]
             (set (of_list (split newline (exported_text w))) n text))
          (exported_world w))).
Proof.
  unfold setLine, bind. rewrite getMarkdownFromEditor_some.
  rewrite setMarkdownToEditor_some. reflexivity.
Qed.

Lemma content_changes_app (t u : list event) :
  content_changes (t ++ u) = content_changes t ++ content_changes u.
Proof.
  induction t as [|ev t IH]; [reflexivity|].
  destruct ev; simpl; now rewrite IH.
Qed.

Lemma content_changes_exported (w : World) :
  content_changes (trace (exported_world w)) = content_changes (trace w).
Proof.
  unfold exported_world, emit.
  destruct (turndown (getHTML (tiptap w))); simpl;
    rewrite !content_changes_app; simpl; now rewrite !app_nil_r.
Qed.

Lemma unchanged_world_no_call {A} (m : M A) (w : World) :
  snd (m w) = w -> ~ calls_serializer m w.
Proof.
  intros H (html & Hin). rewrite H, skipn_all in Hin. exact Hin.
Qed.

(** Two clicks on the bold button: the outcome is TipTap's. *)
Lemma bold_onClick_twice (ed : Editor) (w : World) :
  bind (bold_onClick ed) (fun _ => bold_onClick ed) w
  = (Normal tt,
     mkWorld
       (cmd_toggleBold (cmd_focus (cmd_toggleBold (cmd_focus (tiptap w)))))
       (trace w)).
Proof. reflexivity. Qed.

End ComponentFacts.


(** ** Facts on the engine's limit *)

Section EngineLimitFacts.

Context {C : Collaborators}.

Variable limit : Z.
Variable range_error : exn.

Lemma setLine_within_some (ed : Editor) (n : Z) (text : jsstring)
  (w : World) :
  setLine_within limit range_error (Some ed) n text w
  = if (Z.of_nat
          (List.length
             (join [newline]
                (set (of_list (split newline (exported_text w))) n text)))
        <=? limit)%Z
    then (Normal tt,
          focused_world
            (imported_world
               (join [newline]
                  (set (of_list (split newline (exported_text w))) n text))
               (exported_world w)))
    else (Throw range_error, exported_world w).
Proof.
  unfold setLine_within, bind. rewrite getMarkdownFromEditor_some.
  unfold join_within.
  destruct (Z.of_nat _ <=? limit)%Z; [|reflexivity].
  now rewrite setMarkdownToEditor_some.
Qed.

(** Where the joined text fits, [setLine_within] is [setLine]. *)
Lemma setLine_within_fits (ed : Editor) (n : Z) (text : jsstring)
  (w : World) :
  (Z.of_nat
     (List.length
        (join [newline]
           (set (of_list (split newline (exported_text w))) n text)))
   <= limit)%Z ->
  setLine_within limit range_error (Some ed) n text w
  = setLine (Some ed) n text w.
Proof.
  intros H. rewrite setLine_within_some, setLine_some.
  apply Z.leb_le in H. now rewrite H.
Qed.

End EngineLimitFacts.

(** The text joined after a store past the end is at least as long as
    the index: one newline for each line before it. *)
Lemma joined_past_end_long ls n text :
  (Z.of_nat (List.length ls) <= n < array_limit)%Z ->
  (n <= Z.of_nat (List.length (join [newline] (set (of_list ls) n text))))%Z.
Proof.
  intros H. rewrite join_unlines, set_beyond by assumption.
  pose proof (unlines_length
                (ls ++ repeat [] (Z.to_nat n - List.length ls) ++ [text]))
    as Hlen.
  rewrite !length_app, repeat_length in Hlen. simpl List.length in Hlen.
  unfold jsstring, char16 in *. lia.
Qed.

(** ** The claims *)

(** C1: whenever the serializer returns a string, [getMarkdownFromEditor]
    returns exactly that string after the six substitutions, in the order
    after/before [**], after/before [*], after/before [~~]; the pass is
    unconditional and deletes white space only, also inside a code span
    and inside a link text. *)
Theorem export_applies_six_substitutions {C : Collaborators}
  (ed : Editor) (w : World) (markdown : jsstring) :
  turndown (getHTML (tiptap w)) = Normal markdown ->
  getMarkdownFromEditor (Some ed) w
  = (Normal (cleanup markdown), emit (Turndown (getHTML (tiptap w))) w)
  /\ deletes_ws markdown (cleanup markdown)
  /\ cleanup (lit "** a ** and * b * and ~~ c ~~") = lit "**a**and*b*and~~c~~"
  /\ cleanup (lit "`a ** b`") = lit "`a**b`"
  /\ cleanup (lit "[a * b](u)") = lit "[a*b](u)".
Proof.
  intros H. split; [|split; [apply cleanup_deletes_ws | repeat split]].
  rewrite getMarkdownFromEditor_some.
  unfold exported_text, exported_world. now rewrite H.
Qed.

Lemma export_applies_six_substitutions_witness :
  turndown (Collaborators := plain)
    (getHTML (tiptap (holding plain (lit "x ** y")))) = Normal (lit "x ** y")
  /\ getMarkdownFromEditor (C := plain) (Some TheEditor)
       (holding plain (lit "x ** y"))
     = (Normal (lit "x**y"),
        mkWorld (C := plain) (lit "x ** y") [Turndown (lit "x ** y")]).
Proof.
  split; [reflexivity|].
  exact (proj1 (export_applies_six_substitutions (C := plain) TheEditor
                  (holding plain (lit "x ** y")) (lit "x ** y") eq_refl)).
Defined.

(** C2, as the code has it: with an editor, [getLine n] exports the whole
    document, splits the text at its newlines (pieces without newline
    whose join is the text) and returns element [n], the empty string
    where there is none; [setLine n text] exports and splits alike, stores
    [text] at index [n] -- inside the split this replaces element [n]; a
    negative [n] and an [n] past the end that is no array index store
    nothing -- and joins with newlines.  If the joined text is within the
    engine's limit it is imported whole and the editor is focused;
    otherwise the join throws the RangeError and nothing is imported. *)
Theorem line_accessors_rebuild_document {C : Collaborators}
  (limit : Z) (range_error : exn)
  (ed : Editor) (w : World) (n : Z) (text : jsstring) :
  let lines := split newline (exported_text w) in
  let joined := join [newline] (set (of_list lines) n text) in
  getMarkdownFromEditor (Some ed) w
  = (Normal (exported_text w), exported_world w)
  /\ lines <> []
  /\ Forall (fun l => has_newline l = false) lines
  /\ unlines lines = exported_text w
  /\ split newline three_lines = [[97]; [98]; [99]]
  /\ getLine (Some ed) n w = (Normal (line_at lines n), exported_world w)
  /\ ((0 <= n < Z.of_nat (List.length lines))%Z ->
      joined = unlines (with_line lines (Z.to_nat n) text))
  /\ ((n < 0)%Z \/ (Z.of_nat (List.length lines) <= n /\ array_limit <= n)%Z ->
      joined = exported_text w)
  /\ ((Z.of_nat (List.length joined) <= limit)%Z ->
      setLine_within limit range_error (Some ed) n text w
      = (Normal tt,
         focused_world (imported_world joined (exported_world w))))
  /\ ((limit < Z.of_nat (List.length joined))%Z ->
      setLine_within limit range_error (Some ed) n text w
      = (Throw range_error, exported_world w)).
Proof.
  intros lines joined.
  split; [apply getMarkdownFromEditor_some|].
  split; [apply split_not_nil|]. split; [apply split_pieces|].
  split; [apply unlines_split|]. split; [reflexivity|].
  split; [apply getLine_some|]. split; [|split; [|split]].
  - intros Hn. unfold joined. rewrite set_inside by assumption.
    apply join_of_list.
  - intros [Hn | [Hn1 Hn2]]; unfold joined.
    + rewrite set_negative by assumption.
      rewrite join_of_list. apply unlines_split.
    + rewrite set_far by assumption.
      rewrite join_of_list. apply unlines_split.
  - intros Hfit. rewrite setLine_within_some. fold lines. fold joined.
    apply Z.leb_le in Hfit. now rewrite Hfit.
  - intros Hover. rewrite setLine_within_some. fold lines. fold joined.
    apply Z.leb_gt in Hover. now rewrite Hover.
Qed.

Lemma line_accessors_rebuild_document_witness :
  (0 <= 1 < Z.of_nat (List.length (split newline
       (exported_text (holding plain three_lines)))))%Z
  /\ getLine (C := plain) (Some TheEditor) 1 (holding plain three_lines)
     = (Normal [98], exported_world (holding plain three_lines))
  /\ join [newline]
       (set (of_list (split newline
               (exported_text (holding plain three_lines))))
          1 (lit "B"))
     = [97; 10; 66; 10; 99]
  /\ setLine_within v8_string_limit tt (C := plain) (Some TheEditor) 1
       (lit "B") (holding plain three_lines)
     = (Normal tt,
        mkWorld (C := plain) [97; 10; 66; 10; 99]
          [Turndown three_lines; MarkedParse [97; 10; 66; 10; 99]]).
Proof.
  assert (H : (0 <= 1 < Z.of_nat (List.length (split newline
       (exported_text (holding plain three_lines)))))%Z)
    by (vm_compute; split; [discriminate | reflexivity]).
  pose proof (line_accessors_rebuild_document (C := plain) v8_string_limit
                tt TheEditor (holding plain three_lines) 1 (lit "B"))
    as (_ & _ & _ & _ & _ & Hget & Hin & _ & Hfit & _).
  split; [exact H|]. split; [rewrite Hget; reflexivity|].
  split; [rewrite (Hin H); reflexivity|].
  rewrite Hfit; [reflexivity|]. vm_compute. discriminate.
Defined.

(** C2, refuted as stated: [setLine] does not import a joined text for
    every line number.  At index 600000000 on a one-line document the
    joined text would have more than 600000000 characters, above the
    limit of V8: the join throws and the call ends with the RangeError
    after the export alone, the document as it was. *)
Lemma setLine_throws_at_huge_index :
  setLine_within v8_string_limit tt (C := plain) (Some TheEditor)
    600000000 (lit "z") (holding plain (lit "ab"))
  = (Throw tt, mkWorld (C := plain) (lit "ab") [Turndown (lit "ab")]).
Proof.
  rewrite setLine_within_some.
  assert (Hsplit : split newline (exported_text (holding plain (lit "ab")))
                   = [lit "ab"]) by reflexivity.
  rewrite Hsplit.
  pose proof (joined_past_end_long [lit "ab"] 600000000 (lit "z")) as Hlong.
  destruct (Z.of_nat _ <=? v8_string_limit)%Z eqn:E; [|reflexivity].
  apply Z.leb_le in E. unfold v8_string_limit, array_limit in *.
  change (Z.of_nat (List.length [lit "ab"])) with 1%Z in Hlong. lia.
Qed.

(** C3: a throw of the serializer is caught and logged and the plain text
    of the document is returned; a throw of the markdown parser is caught
    and logged and the raw markdown is set as content; whatever the
    converters do, both functions complete normally. *)
Theorem conversion_failures_fall_back {C : Collaborators}
  (ed : Editor) (editor : option Editor) (w : World) (markdown : jsstring) :
  (forall x, turndown (getHTML (tiptap w)) = Throw x ->
     getMarkdownFromEditor (Some ed) w
     = (Normal (textContent (tiptap w)),
        mkWorld (tiptap w)
          (trace w ++ [Turndown (getHTML (tiptap w));
                       ConsoleError "Error serializing to markdown:" x])))
  /\ (forall x, marked_parse markdown = Throw x ->
        setMarkdownToEditor (Some ed) markdown w
        = (Normal tt,
           mkWorld (cmd_setContent markdown (tiptap w))
             (trace w ++ [MarkedParse markdown;
                          ConsoleError "Error parsing markdown:" x])))
  /\ (exists s w', getMarkdownFromEditor editor w = (Normal s, w'))
  /\ (exists w', setMarkdownToEditor editor markdown w = (Normal tt, w')).
Proof.
  repeat split.
  - intros x Hx. rewrite getMarkdownFromEditor_some.
    unfold exported_text, exported_world, emit. rewrite Hx. simpl.
    now rewrite <- app_assoc.
  - intros x Hx. rewrite setMarkdownToEditor_some.
    unfold imported_world. now rewrite Hx.
  - destruct editor as [e|].
    + rewrite getMarkdownFromEditor_some. eauto.
    + simpl. unfold ret. eauto.
  - destruct editor as [e|].
    + rewrite setMarkdownToEditor_some. eauto.
    + simpl. unfold ret. eauto.
Qed.

Lemma conversion_failures_fall_back_witness :
  turndown (Collaborators := failing)
    (getHTML (tiptap (holding failing (lit "<p>hi</p>")))) = Throw tt
  /\ marked_parse (Collaborators := failing) (lit "# hi") = Throw tt
  /\ getMarkdownFromEditor (C := failing) (Some TheEditor)
       (holding failing (lit "<p>hi</p>"))
     = (Normal (lit "<p>hi</p>"),
        mkWorld (C := failing) (lit "<p>hi</p>")
          [Turndown (lit "<p>hi</p>");
           ConsoleError (C := failing) "Error serializing to markdown:" tt])
  /\ setMarkdownToEditor (C := failing) (Some TheEditor) (lit "# hi")
       (holding failing (lit "<p>hi</p>"))
     = (Normal tt,
        mkWorld (C := failing) (lit "# hi")
          [MarkedParse (lit "# hi");
           ConsoleError (C := failing) "Error parsing markdown:" tt]).
Proof.
  split; [reflexivity|]. split; [reflexivity|].
  pose proof (conversion_failures_fall_back (C := failing) TheEditor
                (Some TheEditor) (holding failing (lit "<p>hi</p>"))
                (lit "# hi")) as (Hexport & Himport & _).
  split; [exact (Hexport tt eq_refl) | exact (Himport tt eq_refl)].
Defined.

(** C4: import followed by export does not give the text back.  The
    import hands the markdown to the parser as it is; the export ends with
    the substitutions, after which no white space stands before a star.
    Hence no markdown with white space before a star (such as
    [some *italic* text]) comes back from a cycle in which the serializer
    returns. *)
Theorem import_export_changes_text {C : Collaborators}
  (ed : Editor) (w : World) (markdown out : jsstring) :
  ws_before_star markdown = true ->
  turndown (getHTML (tiptap (snd (setMarkdownToEditor (Some ed) markdown w))))
  = Normal out ->
  let w1 := snd (setMarkdownToEditor (Some ed) markdown w) in
  w1 = imported_world markdown w
  /\ In (MarkedParse markdown) (trace w1)
  /\ fst (getMarkdownFromEditor (Some ed) w1) = Normal (cleanup out)
  /\ cleanup out <> markdown.
Proof.
  intros Hmd Hout w1. fold w1 in Hout.
  assert (Hw1 : w1 = imported_world markdown w)
    by (unfold w1; now rewrite setMarkdownToEditor_some).
  split; [exact Hw1|]. split.
  - rewrite Hw1. unfold imported_world.
    destruct (marked_parse markdown); simpl; apply in_or_app; right;
      simpl; auto.
  - rewrite getMarkdownFromEditor_some. unfold exported_text.
    rewrite Hout. split; [reflexivity|].
    intros Heq. pose proof (cleanup_clears out) as Hclear.
    rewrite Heq, Hmd in Hclear. discriminate.
Qed.

Lemma import_export_changes_text_witness :
  ws_before_star (lit "some *italic* text") = true
  /\ fst (getMarkdownFromEditor (C := plain) (Some TheEditor)
            (snd (setMarkdownToEditor (C := plain) (Some TheEditor)
                    (lit "some *italic* text") (holding plain []))))
     = Normal (lit "some*italic*text")
  /\ cleanup (lit "some *italic* text") <> lit "some *italic* text".
Proof.
  split; [reflexivity|].
  pose proof (import_export_changes_text (C := plain) TheEditor
                (holding plain []) (lit "some *italic* text")
                (lit "some *italic* text") eq_refl eq_refl)
    as (_ & _ & Hexport & Hneq).
  split; [exact Hexport | exact Hneq].
Defined.

(** C5, as the code has it: with an editor, [getCursorLineNumber] answers
    from ProseMirror's coordinate space alone -- the start position of the
    depth-1 node around the selection anchor, minus one -- and leaves the
    world as it was: the serializer is not called, no text is split. *)
Theorem getCursorLineNumber_resolves_position {C : Collaborators}
  (ed : Editor) (w : World) :
  getCursorLineNumber (Some ed) w
  = (Normal (resolve_start (tiptap w) (selection_anchor (tiptap w)) 1 - 1)%Z,
     w)
  /\ ~ calls_serializer (getCursorLineNumber (Some ed)) w.
Proof.
  split; [reflexivity|]. now apply unchanged_world_no_call.
Qed.

(** C5, refuted as stated: a query for the cursor line does not derive the
    markdown text again; on a three-line document it returns without a call
    of the serializer, while [getLine] on the same document makes one. *)
Lemma cursor_line_query_skips_export :
  ~ calls_serializer (getCursorLineNumber (C := plain) (Some TheEditor))
      (holding plain three_lines)
  /\ calls_serializer (getLine (C := plain) (Some TheEditor) 1)
       (holding plain three_lines).
Proof.
  split.
  - intros (html & Hin). vm_compute in Hin. exact Hin.
  - exists three_lines. vm_compute. left; reflexivity.
Qed.

(** C8: one run of [onUpdate] hands the callback exactly one text, the one
    [getMarkdownFromEditor] returns for the current document. *)
Theorem onUpdate_reports_export_once {C : Collaborators}
  (ed : Editor) (w : World) :
  fst (getMarkdownFromEditor (Some ed) w) = Normal (exported_text w)
  /\ onUpdate ed w
     = (Normal tt, emit (ContentChange (exported_text w)) (exported_world w))
  /\ content_changes (trace (snd (onUpdate ed w)))
     = content_changes (trace w) ++ [exported_text w].
Proof.
  assert (Hrun : onUpdate ed w
     = (Normal tt, emit (ContentChange (exported_text w)) (exported_world w))).
  { unfold onUpdate, bind. now rewrite getMarkdownFromEditor_some. }
  split; [now rewrite getMarkdownFromEditor_some|]. split; [exact Hrun|].
  rewrite Hrun. simpl. rewrite content_changes_app, content_changes_exported.
  reflexivity.
Qed.

(** C9: while the editor is [null], every action of the handle completes
    normally and leaves the world as it is; the getters answer the empty
    string or 0. *)
Theorem null_editor_actions_are_benign {C : Collaborators} (w : World)
  (text : jsstring) (content prefix suffix : option jsstring)
  (n startPos a b : Z) (endPos : option Z) :
  getContent None w = (Normal [], w)
  /\ getLine None n w = (Normal [], w)
  /\ getSelectedContent None w = (Normal [], w)
  /\ getCursorPosition None w = (Normal 0%Z, w)
  /\ getCursorLineNumber None w = (Normal 0%Z, w)
  /\ focus None w = (Normal tt, w)
  /\ insertText None content prefix suffix w = (Normal tt, w)
  /\ removeText None a b w = (Normal tt, w)
  /\ setContent None text w = (Normal tt, w)
  /\ setLine None n text w = (Normal tt, w)
  /\ setCursorPosition None startPos endPos w = (Normal tt, w)
  /\ scrollToCursor None w = (Normal tt, w).
Proof. repeat split. Qed.




(** ** Further facts on the substitutions *)

Lemma deletes_ws_length s t :
  deletes_ws s t -> (List.length t <= List.length s)%nat.
Proof. induction 1; simpl; lia. Qed.

Lemma deletes_ws_solid_part s t :
  deletes_ws s t ->
  filter (fun c => negb (is_space c)) t
  = filter (fun c => negb (is_space c)) s.
Proof.
  induction 1 as [|c s t _ IH|c s t Hc _ IH]; simpl.
  - reflexivity.
  - destruct (is_space c); simpl; now rewrite IH.
  - now rewrite Hc.
Qed.

Lemma replace_never_matches m r s :
  never_matches m s -> replace m r s = s.
Proof.
  induction s as [|c s IH]; intros [Hm Hrest].
  - unfold replace; simpl. now rewrite Hm.
  - rewrite (replace_miss _ _ _ _ Hm). f_equal. now apply IH.
Qed.

Lemma adjacent_cons p q c s :
  adjacent p q (c :: s)
  = (p c && match s with d :: _ => q d | [] => false end) || adjacent p q s.
Proof.
  destruct s; simpl; [now rewrite andb_false_r | reflexivity].
Qed.

Lemma adjacent_tail p q c s :
  adjacent p q (c :: s) = false -> adjacent p q s = false.
Proof.
  rewrite adjacent_cons. intros H. now apply orb_false_iff in H.
Qed.

Lemma adjacent_skipn p q n s :
  adjacent p q s = false -> adjacent p q (skipn n s) = false.
Proof.
  revert s; induction n as [|n IH]; intros [|c s] H; simpl; auto.
  apply IH. now apply adjacent_tail in H.
Qed.

Lemma adjacent_here p q a x c b :
  p x = true -> q c = true -> adjacent p q (a ++ x :: c :: b) = true.
Proof.
  intros Hx Hc. induction a as [|y a IH].
  - simpl. now rewrite Hx, Hc.
  - change ((y :: a) ++ x :: c :: b) with (y :: (a ++ x :: c :: b)).
    rewrite adjacent_cons, IH. apply orb_true_r.
Qed.

Lemma never_matches_of_adjacent p q m s :
  (forall t n, m t = Some n -> adjacent p q t = true) ->
  adjacent p q s = false -> never_matches m s.
Proof.
  intros Hm. induction s as [|c s IH]; intros Hs.
  - split; [|exact I]. destruct (m []) as [n|] eqn:E; [|reflexivity].
    apply Hm in E. discriminate.
  - split.
    + destruct (m (c :: s)) as [n|] eqn:E; [|reflexivity].
      apply Hm in E. congruence.
    + apply IH. now apply adjacent_tail in Hs.
Qed.

Lemma count_ws_head s k :
  count_ws s = S k -> exists c s', s = c :: s' /\ is_space c = true.
Proof.
  destruct s as [|c s]; simpl; [discriminate|].
  destruct (is_space c) eqn:Hc; [|discriminate]. eauto.
Qed.

(** A match of [/D x\s+/] shows [x] before white space. *)
Lemma match_after_adjacent d x s n :
  match_after (d ++ [x]) s = Some n ->
  adjacent (fun c => c =? x) is_space s = true.
Proof.
  unfold match_after.
  destruct (starts_with (d ++ [x]) s) eqn:Hd; [|discriminate].
  destruct (count_ws _) as [|k] eqn:Hk; [discriminate|]. intros _.
  apply starts_with_app in Hd.
  apply count_ws_head in Hk as (c & rest & Hrest & Hc).
  rewrite Hrest, <- app_assoc in Hd. rewrite Hd.
  apply adjacent_here; [apply N.eqb_refl | exact Hc].
Qed.

(** A match of [/\s+x D/] shows white space before [x]. *)
Lemma run_then_adjacent x d s :
  is_space x = false ->
  (0 < count_ws s)%nat ->
  starts_with (x :: d) (skipn (count_ws s) s) = true ->
  adjacent is_space (fun c => c =? x) s = true.
Proof.
  intros Hx. induction s as [|c s IH]; simpl count_ws; [lia|].
  destruct (is_space c) eqn:Hc; [|lia]. intros _ Hd. simpl skipn in Hd.
  rewrite adjacent_cons. destruct (count_ws s) as [|k] eqn:Hk.
  - simpl skipn in Hd. destruct s as [|y s]; [discriminate|].
    simpl in Hd. apply andb_true_iff in Hd as [Hxy _].
    rewrite Hc, N.eqb_sym, Hxy. reflexivity.
  - rewrite IH; [apply orb_true_r | lia | exact Hd].
Qed.

Lemma match_before_adjacent x d s n :
  is_space x = false ->
  match_before (x :: d) s = Some n ->
  adjacent is_space (fun c => c =? x) s = true.
Proof.
  intros Hx. rewrite (match_before_greedy _ _ _ Hx).
  destruct (count_ws s) as [|k] eqn:Hk; [discriminate|].
  destruct (starts_with _ _) eqn:Hd; [|discriminate]. intros _.
  apply (run_then_adjacent x d); [exact Hx | lia | now rewrite Hk].
Qed.

Lemma ws_before_star_adjacent s :
  ws_before_star s = adjacent is_space is_star s.
Proof.
  induction s as [|c s IH]; [reflexivity|].
  rewrite ws_before_star_cons, adjacent_cons, IH.
  destruct s; reflexivity.
Qed.

(** A text in which no white space touches a star or a tilde is a fixed
    point of the six substitutions. *)
Lemma cleanup_fixed s :
  star_before_ws s = false -> ws_before_star s = false ->
  tilde_before_ws s = false -> ws_before_tilde s = false ->
  cleanup s = s.
Proof.
  intros H1 H2 H3 H4. rewrite ws_before_star_adjacent in H2.
  unfold cleanup, cleanup_rules; simpl fold_left.
  rewrite (replace_never_matches (match_after (lit "**"))).
  2:{ apply (never_matches_of_adjacent is_star is_space); [|exact H1].
      intros t n. apply (match_after_adjacent [star] star). }
  rewrite (replace_never_matches (match_before (lit "**"))).
  2:{ apply (never_matches_of_adjacent is_space is_star); [|exact H2].
      intros t n. now apply (match_before_adjacent star [star]). }
  rewrite (replace_never_matches (match_after (lit "*"))).
  2:{ apply (never_matches_of_adjacent is_star is_space); [|exact H1].
      intros t n. apply (match_after_adjacent [] star). }
  rewrite (replace_never_matches (match_before (lit "*"))).
  2:{ apply (never_matches_of_adjacent is_space is_star); [|exact H2].
      intros t n. now apply (match_before_adjacent star []). }
  rewrite (replace_never_matches (match_after (lit "~~"))).
  2:{ apply (never_matches_of_adjacent is_tilde is_space); [|exact H3].
      intros t n. apply (match_after_adjacent [tilde] tilde). }
  apply replace_never_matches.
  apply (never_matches_of_adjacent is_space is_tilde); [|exact H4].
  intros t n. now apply (match_before_adjacent tilde [tilde]).
Qed.

Lemma unmarked_not_adjacent_l q s :
  unmarked s = true ->
  adjacent is_star q s = false /\ adjacent is_tilde q s = false.
Proof.
  induction s as [|c s IH]; [split; reflexivity|].
  intros H. unfold unmarked in *. cbn [forallb] in H.
  apply andb_true_iff in H as [Hc Hs].
  apply andb_true_iff in Hc as [Hstar Htilde].
  apply negb_true_iff in Hstar, Htilde. destruct (IH Hs) as [IH1 IH2].
  rewrite !adjacent_cons, IH1, IH2, Hstar, Htilde. split; reflexivity.
Qed.

Lemma unmarked_not_adjacent_r p s :
  unmarked s = true ->
  adjacent p is_star s = false /\ adjacent p is_tilde s = false.
Proof.
  induction s as [|c s IH]; [split; reflexivity|].
  intros H. unfold unmarked in *. cbn [forallb] in H.
  apply andb_true_iff in H as [_ Hs].
  destruct (IH Hs) as [IH1 IH2]. rewrite !adjacent_cons, IH1, IH2.
  destruct s as [|d s]; [now rewrite andb_false_r|].
  cbn [forallb] in Hs. apply andb_true_iff in Hs as [Hd _].
  apply andb_true_iff in Hd as [Hstar Htilde].
  apply negb_true_iff in Hstar, Htilde.
  rewrite Hstar, Htilde, andb_false_r. split; reflexivity.
Qed.

Lemma cleanup_unmarked s : unmarked s = true -> cleanup s = s.
Proof.
  intros H. apply cleanup_fixed.
  - apply (unmarked_not_adjacent_l is_space), H.
  - rewrite ws_before_star_adjacent.
    apply (unmarked_not_adjacent_r is_space), H.
  - apply (unmarked_not_adjacent_l is_space), H.
  - apply (unmarked_not_adjacent_r is_space), H.
Qed.

(** *** No white space is left after a star *)

Lemma star_before_ws_cons c s :
  star_before_ws (c :: s)
  = ((c =? star) && head_is_space s) || star_before_ws s.
Proof.
  unfold star_before_ws. rewrite adjacent_cons. destruct s; reflexivity.
Qed.

Lemma star_before_ws_skipn n s :
  star_before_ws s = false -> star_before_ws (skipn n s) = false.
Proof. apply adjacent_skipn. Qed.

Lemma head_is_space_replace m r s :
  well_behaved m -> r <> [] -> head_is_space r = false ->
  head_is_space s = false -> head_is_space (replace m r s) = false.
Proof.
  intros Hm Hr Hhead Hs. destruct s as [|c s].
  - now rewrite replace_nil.
  - destruct (m (c :: s)) as [n|] eqn:E.
    + rewrite (replace_hit _ _ _ _ Hm E).
      destruct r; [contradiction | exact Hhead].
    + rewrite (replace_miss _ _ _ _ E). exact Hs.
Qed.

(** After a greedy run of white space comes no white space. *)
Lemma count_ws_stops s : head_is_space (skipn (count_ws s) s) = false.
Proof.
  induction s as [|c s IH]; [reflexivity|]. simpl count_ws.
  destruct (is_space c) eqn:Hc; [exact IH | exact Hc].
Qed.

Lemma match_after_stops d s n :
  match_after d s = Some n -> head_is_space (skipn n s) = false.
Proof.
  unfold match_after.
  destruct (starts_with d s); [|discriminate].
  destruct (count_ws _) as [|k] eqn:Hk; [discriminate|]. intros [= Hn].
  assert (Hsk : skipn n s
               = skipn (count_ws (skipn (List.length d) s))
                   (skipn (List.length d) s))
    by (rewrite skipn_skipn, Hk; f_equal; lia).
  rewrite Hsk. apply count_ws_stops.
Qed.

Lemma star_before_ws_middle a b :
  star_before_ws (a ++ star :: b) = false -> head_is_space b = false.
Proof.
  induction a as [|y a IH]; simpl app; rewrite star_before_ws_cons;
    intros H; apply orb_false_iff in H as [H1 H2]; [|now apply IH].
  exact H1.
Qed.

(** After [/\*\s+/g -> "*"] no star stands before white space. *)
Lemma star_rule_clears_after s :
  star_before_ws (replace (match_after [star]) [star] s) = false.
Proof.
  pose proof (match_after_well_behaved [star]) as Hm. revert s.
  apply (scan_ind (match_after [star]));
    [exact Hm | | intros s n E IH | intros c s E IH].
  - now rewrite replace_nil.
  - rewrite (replace_hit _ _ _ _ Hm E). simpl app.
    rewrite star_before_ws_cons, IH, orb_false_r.
    rewrite head_is_space_replace;
      [apply andb_false_r | exact Hm | discriminate | reflexivity |].
    now apply (match_after_stops [star]).
  - rewrite (replace_miss _ _ _ _ E), star_before_ws_cons, IH, orb_false_r.
    destruct (c =? star) eqn:Hc; [simpl|reflexivity].
    apply N.eqb_eq in Hc; subst c.
    apply head_is_space_replace; [exact Hm | discriminate | reflexivity |].
    unfold match_after in E. simpl in E.
    destruct s as [|c2 s]; [reflexivity|]. simpl in *.
    destruct (is_space c2); [discriminate | reflexivity].
Qed.

(** [/\s+\*/g -> "*"] brings no star before white space. *)
Lemma star_rule_keeps_after s :
  star_before_ws s = false ->
  star_before_ws (replace (match_before [star]) [star] s) = false.
Proof.
  pose proof (match_before_well_behaved [star]) as Hm. revert s.
  apply (scan_ind (match_before [star])
           (fun s => star_before_ws s = false ->
              star_before_ws (replace (match_before [star]) [star] s)
              = false));
    [exact Hm | | intros s n E IH | intros c s E IH].
  - now rewrite replace_nil.
  - intros Hs. rewrite (replace_hit _ _ _ _ Hm E). simpl app.
    rewrite star_before_ws_cons.
    rewrite (IH (star_before_ws_skipn _ _ Hs)), orb_false_r.
    rewrite head_is_space_replace;
      [apply andb_false_r | exact Hm | discriminate | reflexivity |].
    destruct (match_before_shape _ _ _ E) as (ws & Heq & _).
    rewrite Heq in Hs. now apply star_before_ws_middle in Hs.
  - intros Hs. rewrite (replace_miss _ _ _ _ E).
    rewrite star_before_ws_cons in *.
    apply orb_false_iff in Hs as [Hc Hs].
    rewrite (IH Hs), orb_false_r.
    destruct (c =? star); [simpl in *|reflexivity].
    apply head_is_space_replace;
      [exact Hm | discriminate | reflexivity | exact Hc].
Qed.

(** A rule whose replacement is [~~] brings no star before white space. *)
Lemma tilde_rule_keeps_after m s :
  well_behaved m ->
  star_before_ws s = false ->
  star_before_ws (replace m [tilde; tilde] s) = false.
Proof.
  intros Hm. revert s.
  apply (scan_ind m (fun s => star_before_ws s = false ->
            star_before_ws (replace m [tilde; tilde] s) = false));
    [exact Hm | | intros s n E IH | intros c s E IH].
  - now rewrite replace_nil.
  - intros Hs. rewrite (replace_hit _ _ _ _ Hm E). simpl app.
    rewrite !star_before_ws_cons. simpl.
    apply IH. now apply star_before_ws_skipn.
  - intros Hs. rewrite (replace_miss _ _ _ _ E).
    rewrite star_before_ws_cons in *.
    apply orb_false_iff in Hs as [Hc Hs].
    rewrite (IH Hs), orb_false_r.
    destruct (c =? star); [simpl in *|reflexivity].
    apply head_is_space_replace;
      [exact Hm | discriminate | reflexivity | exact Hc].
Qed.

Lemma cleanup_clears_after s : star_before_ws (cleanup s) = false.
Proof.
  unfold cleanup, cleanup_rules; simpl fold_left.
  change (lit "~~") with [tilde; tilde]. change (lit "*") with [star].
  apply tilde_rule_keeps_after; [apply match_before_well_behaved|].
  apply tilde_rule_keeps_after; [apply match_after_well_behaved|].
  apply star_rule_keeps_after. apply star_rule_clears_after.
Qed.

(** *** Further facts on lines *)

Lemma head_of_first_line s :
  head_is_star (hd [] (split newline s)) = head_is_star s.
Proof.
  destruct s as [|c s]; [reflexivity|]. simpl.
  destruct (c =? newline) eqn:E.
  - apply N.eqb_eq in E; subst c. reflexivity.
  - destruct (split newline s); reflexivity.
Qed.

Lemma later_lines_start s :
  ws_before_star s = false ->
  Forall (fun l => head_is_star l = false) (tl (split newline s)).
Proof.
  induction s as [|c s IH]; [constructor|].
  rewrite ws_before_star_cons. intros H.
  apply orb_false_iff in H as [Hc Hs]. specialize (IH Hs). simpl split.
  destruct (c =? newline) eqn:E.
  - apply N.eqb_eq in E; subst c. simpl in Hc. simpl tl.
    pose proof (head_of_first_line s) as Hhd. rewrite Hc in Hhd.
    destruct (split newline s) as [|l ls]; [constructor|].
    constructor; [exact Hhd | exact IH].
  - destruct (split newline s) as [|l ls]; [constructor | exact IH].
Qed.

Lemma ends_with_star_cons c l :
  ends_with_star (c :: l)
  = match l with [] => c =? star | _ :: _ => ends_with_star l end.
Proof.
  unfold ends_with_star. simpl rev. destruct l as [|d l]; [reflexivity|].
  destruct (rev (d :: l)) eqn:E; [|reflexivity].
  apply (f_equal (@List.length _)) in E. rewrite length_rev in E.
  discriminate.
Qed.

Lemma first_line_empty c s l ls :
  split newline (c :: s) = l :: ls -> l = [] -> c = newline.
Proof.
  simpl. destruct (c =? newline) eqn:E; [intros; now apply N.eqb_eq|].
  destruct (split newline s); intros [= <- _]; discriminate.
Qed.

Lemma earlier_lines_end s :
  star_before_ws s = false ->
  Forall (fun l => ends_with_star l = false) (removelast (split newline s)).
Proof.
  induction s as [|c s IH]; [constructor|].
  rewrite star_before_ws_cons. intros H.
  apply orb_false_iff in H as [Hc Hs]. specialize (IH Hs).
  pose proof (split_not_nil newline s) as Hne. simpl split.
  destruct (c =? newline) eqn:E.
  - destruct (split newline s) as [|l ls] eqn:Hsplit; [contradiction|].
    change (removelast ([] :: l :: ls)) with ([] :: removelast (l :: ls)).
    constructor; [reflexivity | exact IH].
  - destruct (split newline s) as [|l ls] eqn:Hsplit; [contradiction|].
    destruct ls as [|l2 ls]; [constructor|].
    change (removelast ((c :: l) :: l2 :: ls))
      with ((c :: l) :: removelast (l2 :: ls)).
    change (removelast (l :: l2 :: ls))
      with (l :: removelast (l2 :: ls)) in IH.
    inversion IH as [|? ? Hl Hrest]; subst.
    constructor; [|exact Hrest].
    rewrite ends_with_star_cons. destruct l as [|d l]; [|exact Hl].
    destruct s as [|c2 s]; [discriminate|].
    pose proof (first_line_empty _ _ _ _ Hsplit eq_refl) as ->.
    simpl in Hc. now rewrite andb_true_r in Hc.
Qed.

Lemma nth_Forall {A} (P : A -> Prop) l d n :
  Forall P l -> P d -> P (nth n l d).
Proof.
  intros Hl Hd. revert n; induction Hl; intros [|n]; simpl; auto.
Qed.

Lemma nth_tl {A} (l : list A) d n : nth (S n) l d = nth n (tl l) d.
Proof. destruct l; [now destruct n | reflexivity]. Qed.

Lemma nth_removelast {A} (l : list A) d n :
  (S n < List.length l)%nat -> nth n l d = nth n (removelast l) d.
Proof.
  revert n; induction l as [|x l IH]; intros n H; simpl in H; [lia|].
  destruct l as [|y l]; [simpl in H; lia|].
  change (removelast (x :: y :: l)) with (x :: removelast (y :: l)).
  destruct n as [|n]; [reflexivity|].
  change (nth n (y :: l) d = nth n (removelast (y :: l)) d).
  apply IH. simpl in *; lia.
Qed.

Lemma line_at_solid s n : has_newline (line_at (split newline s) n) = false.
Proof.
  unfold line_at. destruct (n <? 0)%Z; [reflexivity|].
  apply (nth_Forall (fun l => has_newline l = false));
    [apply split_pieces | reflexivity].
Qed.

Lemma line_at_start s n :
  ws_before_star s = false -> (1 <= n)%Z ->
  head_is_star (line_at (split newline s) n) = false.
Proof.
  intros Hs Hn. unfold line_at. destruct (n <? 0)%Z eqn:E; [lia|].
  replace (Z.to_nat n) with (S (Z.to_nat n - 1)) by lia. rewrite nth_tl.
  apply (nth_Forall (fun l => head_is_star l = false));
    [now apply later_lines_start | reflexivity].
Qed.

Lemma line_at_end s n :
  star_before_ws s = false ->
  (0 <= n)%Z -> (n + 1 < Z.of_nat (List.length (split newline s)))%Z ->
  ends_with_star (line_at (split newline s) n) = false.
Proof.
  intros Hs Hn Hlen. unfold line_at. destruct (n <? 0)%Z eqn:E; [lia|].
  rewrite nth_removelast by lia.
  apply (nth_Forall (fun l => ends_with_star l = false));
    [now apply earlier_lines_end | reflexivity].
Qed.

Lemma split_app s t :
  split newline (s ++ newline :: t) = split newline s ++ split newline t.
Proof.
  induction s as [|c s IH]; [reflexivity|]. simpl.
  destruct (c =? newline); [now rewrite IH|]. rewrite IH.
  pose proof (split_not_nil newline s).
  destruct (split newline s); [contradiction | reflexivity].
Qed.



Lemma with_line_same (ls : list jsstring) n :
  (n < List.length ls)%nat -> with_line ls n (nth n ls []) = ls.
Proof.
  unfold with_line. revert n; induction ls as [|l ls IH]; intros n H;
    simpl in H; [lia|].
  destruct n as [|n]; [reflexivity|]. simpl. f_equal. apply IH. lia.
Qed.

Lemma map_line_at_indices ls :
  List.map (line_at ls) (indices (List.length ls)) = ls.
Proof.
  unfold indices. rewrite map_map.
  apply nth_ext with (d := []) (d' := []);
    rewrite length_map, length_seq; [reflexivity|].
  intros n Hn.
  rewrite (nth_indep _ [] (line_at ls (Z.of_nat 0)))
    by (rewrite length_map, length_seq; exact Hn).
  rewrite (map_nth (fun i => line_at ls (Z.of_nat i))), seq_nth by exact Hn.
  unfold line_at. simpl plus.
  destruct (Z.of_nat n <? 0)%Z eqn:E; [lia|]. now rewrite Nat2Z.id.
Qed.

(** *** Adjacency across a concatenation *)

Lemma head_sat_rev_cons p c (l : jsstring) :
  l <> [] -> head_sat p (rev (c :: l)) = head_sat p (rev l).
Proof.
  intros Hl. simpl rev. destruct (rev l) eqn:E; [|reflexivity].
  apply (f_equal (@List.length _)) in E. rewrite length_rev in E.
  destruct l; [contradiction | discriminate].
Qed.

Lemma adjacent_app p q a b :
  adjacent p q (a ++ b)
  = adjacent p q a || (head_sat p (rev a) && head_sat q b) || adjacent p q b.
Proof.
  induction a as [|c a IH]; [reflexivity|].
  destruct a as [|d a].
  - change ([c] ++ b) with (c :: b). rewrite adjacent_cons.
    cbn [adjacent rev app head_sat orb]. destruct b; reflexivity.
  - change ((c :: d :: a) ++ b) with (c :: ((d :: a) ++ b)).
    rewrite adjacent_cons, IH, (adjacent_cons p q c (d :: a)).
    rewrite (head_sat_rev_cons p c (d :: a)) by easy. simpl app.
    now rewrite !orb_assoc.
Qed.

Lemma unmarked_app a b : unmarked (a ++ b) = unmarked a && unmarked b.
Proof. apply forallb_app. Qed.

Lemma unmarked_adjacent s :
  unmarked s = true ->
  star_before_ws s = false /\ ws_before_star s = false
  /\ tilde_before_ws s = false /\ ws_before_tilde s = false.
Proof.
  intros H. rewrite ws_before_star_adjacent.
  pose proof (unmarked_not_adjacent_l is_space s H) as [H1 H3].
  pose proof (unmarked_not_adjacent_r is_space s H) as [H2 H4].
  auto.
Qed.

Lemma unmarked_head s :
  unmarked s = true ->
  head_sat is_star s = false /\ head_sat is_tilde s = false.
Proof.
  destruct s as [|c s]; [split; reflexivity|].
  unfold unmarked; cbn [forallb head_sat]. intros H.
  apply andb_true_iff in H as [Hc _]. apply andb_true_iff in Hc as [H1 H2].
  now apply negb_true_iff in H1, H2.
Qed.

Lemma unmarked_rev s : unmarked s = true -> unmarked (rev s) = true.
Proof.
  unfold unmarked. rewrite !forallb_forall. intros H x Hx.
  apply H. now apply in_rev.
Qed.

(** *** trim *)

Lemma trim_start_split s :
  exists w, s = w ++ trim_start s /\ blank w = true.
Proof.
  induction s as [|c s (w & Hs & Hw)]; [now exists []|]. simpl.
  destruct (is_space c) eqn:Hc; [|now exists []].
  exists (c :: w). split; [simpl; now f_equal|]. simpl. now rewrite Hc.
Qed.

Lemma trim_start_head s : head_is_space (trim_start s) = false.
Proof.
  induction s as [|c s IH]; [reflexivity|]. simpl.
  destruct (is_space c) eqn:Hc; [exact IH | exact Hc].
Qed.

Lemma blank_rev w : blank w = true -> blank (rev w) = true.
Proof.
  unfold blank. rewrite !forallb_forall. intros H x Hx.
  apply H. now apply in_rev.
Qed.

Lemma trim_end_split s :
  exists w, s = trim_end s ++ w /\ blank w = true.
Proof.
  destruct (trim_start_split (rev s)) as (w & Hs & Hw).
  exists (rev w). split; [|now apply blank_rev].
  unfold trim_end. rewrite <- rev_app_distr, <- Hs.
  symmetry; apply rev_involutive.
Qed.

Lemma trim_split s :
  exists w1 w2, s = w1 ++ trim s ++ w2 /\ blank w1 = true /\ blank w2 = true.
Proof.
  destruct (trim_start_split s) as (w1 & Hs & Hw1).
  destruct (trim_end_split (trim_start s)) as (w2 & Ht & Hw2).
  exists w1, w2. unfold trim. now rewrite <- Ht.
Qed.

Lemma trim_tail s : ends_with_space (trim s) = false.
Proof.
  unfold ends_with_space, trim, trim_end. rewrite rev_involutive.
  apply trim_start_head.
Qed.

Lemma trim_head s : head_is_space (trim s) = false.
Proof.
  destruct (trim_end_split (trim_start s)) as (w & Ht & _).
  pose proof (trim_start_head s) as Hh. fold (trim s) in Ht.
  destruct (trim s) as [|c t]; [reflexivity|].
  rewrite Ht in Hh. exact Hh.
Qed.

Lemma trim_start_blank s : blank s = true -> trim_start s = [].
Proof.
  induction s as [|c s IH]; [reflexivity|]. simpl. intros H.
  apply andb_true_iff in H as [Hc Hs]. rewrite Hc. now apply IH.
Qed.

Lemma trim_blank s : blank s = true -> trim s = [].
Proof.
  intros H. unfold trim. now rewrite (trim_start_blank _ H).
Qed.

Lemma blank_app a b : blank (a ++ b) = blank a && blank b.
Proof. apply forallb_app. Qed.

Lemma trim_nil_blank s : trim s = [] -> blank s = true.
Proof.
  intros H. destruct (trim_split s) as (w1 & w2 & Hs & Hw1 & Hw2).
  rewrite H in Hs. rewrite Hs, blank_app, Hw1. exact Hw2.
Qed.

Lemma trim_unmarked s : unmarked s = true -> unmarked (trim s) = true.
Proof.
  intros H. destruct (trim_split s) as (w1 & w2 & Hs & _).
  rewrite Hs, !unmarked_app in H.
  apply andb_true_iff in H as [_ H]. now apply andb_true_iff in H as [H _].
Qed.

Lemma trim_has_newline s :
  has_newline s = false -> has_newline (trim s) = false.
Proof.
  intros H. destruct (trim_split s) as (w1 & w2 & Hs & _).
  unfold has_newline in *. rewrite Hs, !existsb_app in H.
  apply orb_false_iff in H as [_ H]. now apply orb_false_iff in H as [H _].
Qed.

Lemma deletes_ws_trim s : deletes_ws s (trim s).
Proof.
  destruct (trim_split s) as (w1 & w2 & Hs & Hw1 & Hw2).
  rewrite Hs at 1.
  change (trim s) with ([] ++ trim s) at 2.
  apply deletes_ws_app; [now apply deletes_ws_run|].
  rewrite <- (app_nil_r (trim s)) at 2.
  apply deletes_ws_app; [apply deletes_ws_refl | now apply deletes_ws_run].
Qed.

(** *** The rules of turndown and the substitutions *)

Lemma head_sat_app p c (t b : jsstring) :
  head_sat p ((c :: t) ++ b) = p c.
Proof. reflexivity. Qed.

Lemma blank_not_tilde q w : blank w = true -> adjacent is_tilde q w = false.
Proof.
  induction w as [|c w IH]; [reflexivity|]. unfold blank; cbn [forallb].
  intros H. apply andb_true_iff in H as [Hc Hw].
  rewrite adjacent_cons, (IH Hw), orb_false_r.
  assert (Ht : is_tilde c = false).
  { unfold is_tilde. apply N.eqb_neq. intros ->. discriminate Hc. }
  now rewrite Ht.
Qed.

Lemma blank_head_tilde w : blank w = true -> head_sat is_tilde w = false.
Proof.
  destruct w as [|c w]; [reflexivity|]. unfold blank; cbn [forallb head_sat].
  intros H. apply andb_true_iff in H as [Hc _].
  unfold is_tilde. apply N.eqb_neq. intros ->. discriminate Hc.
Qed.

Lemma count_ws_blank_app w rest :
  blank w = true -> head_is_space rest = false ->
  count_ws (w ++ rest) = List.length w.
Proof.
  intros Hw Hrest. induction w as [|c w IH]; simpl.
  - destruct rest as [|d rest]; [reflexivity|]. simpl in *. now rewrite Hrest.
  - unfold blank in Hw; cbn [forallb] in Hw.
    apply andb_true_iff in Hw as [Hc Hw]. rewrite Hc. f_equal. now apply IH.
Qed.

Lemma skipn_exact {A} (a b : list A) : skipn (List.length a) (a ++ b) = b.
Proof. induction a; simpl; auto. Qed.

Lemma ends_with_space_cons c (l : jsstring) :
  l <> [] -> ends_with_space (c :: l) = ends_with_space l.
Proof. apply (head_sat_rev_cons is_space). Qed.

Lemma match_before_solid_head d c s :
  is_space c = false -> match_before d (c :: s) = None.
Proof.
  intros Hc. unfold match_before. simpl count_ws. now rewrite Hc.
Qed.

(** A run of white space that starts inside a text with a solid last
    character ends inside it, before a character that is no tilde. *)
Lemma run_inside d t rest :
  t <> [] -> ends_with_space t = false -> unmarked t = true ->
  starts_with (tilde :: d) (skipn (count_ws (t ++ rest)) (t ++ rest)) = false.
Proof.
  induction t as [|c t IH]; [contradiction|]. intros _ Hend Hun.
  unfold unmarked in Hun; cbn [forallb] in Hun.
  apply andb_true_iff in Hun as [Hc Hun].
  apply andb_true_iff in Hc as [_ Hc]. apply negb_true_iff in Hc.
  unfold is_tilde in Hc.
  assert (Hhere : starts_with (tilde :: d) ((c :: t) ++ rest) = false)
    by (cbn [app starts_with]; now rewrite N.eqb_sym, Hc).
  simpl app. simpl count_ws. destruct (is_space c) eqn:Hsp; [|exact Hhere].
  destruct t as [|c2 t].
  - unfold ends_with_space in Hend. simpl in Hend. congruence.
  - simpl skipn. apply IH; [discriminate | | exact Hun].
    now rewrite ends_with_space_cons in Hend.
Qed.

Lemma tilde_rule_misses_inside t rest :
  t <> [] -> ends_with_space t = false -> unmarked t = true ->
  match_before [tilde; tilde] (t ++ rest) = None.
Proof.
  intros Hne Hend Hun.
  rewrite (match_before_greedy tilde [tilde] _ eq_refl).
  destruct (count_ws (t ++ rest)) as [|k] eqn:Hk; [reflexivity|].
  pose proof (run_inside [tilde] t rest Hne Hend Hun) as Hrun.
  rewrite Hk in Hrun. now rewrite Hrun.
Qed.

Lemma tilde_rule_passes t rest :
  ends_with_space t = false -> unmarked t = true ->
  replace (match_before [tilde; tilde]) [tilde; tilde] (t ++ rest)
  = t ++ replace (match_before [tilde; tilde]) [tilde; tilde] rest.
Proof.
  induction t as [|c t IH]; [reflexivity|]. intros Hend Hun.
  change ((c :: t) ++ rest) with (c :: (t ++ rest)).
  rewrite replace_miss
    by (apply (tilde_rule_misses_inside (c :: t)); easy).
  simpl app. f_equal. apply IH.
  - destruct t as [|c2 t]; [reflexivity|].
    now rewrite ends_with_space_cons in Hend.
  - unfold unmarked in *; cbn [forallb] in Hun.
    now apply andb_true_iff in Hun as [_ Hun].
Qed.

Lemma tilde_rule_closes w :
  blank w = true ->
  replace (match_before [tilde; tilde]) [tilde; tilde] (w ++ [tilde; tilde])
  = [tilde; tilde].
Proof.
  intros Hw. destruct w as [|c w]; [reflexivity|].
  pose proof (match_before_well_behaved [tilde; tilde]) as Hm.
  assert (E : match_before [tilde; tilde] ((c :: w) ++ [tilde; tilde])
              = Some (List.length (c :: w) + 2)%nat).
  { rewrite (match_before_greedy tilde [tilde] _ eq_refl).
    rewrite (count_ws_blank_app (c :: w) [tilde; tilde] Hw eq_refl).
    cbn [List.length]. change (S (List.length w)) with (List.length (c :: w)).
    rewrite skipn_exact. cbn [starts_with]. rewrite N.eqb_refl.
    cbn [andb List.length]. f_equal; lia. }
  rewrite (replace_hit _ _ _ _ Hm E).
  rewrite skipn_all2 by (rewrite length_app; simpl; lia).
  now rewrite replace_nil.
Qed.

Lemma tilde_rule_opens w rest :
  blank w = true -> head_is_space rest = false ->
  tilde_before_ws rest = false ->
  replace (match_after [tilde; tilde]) [tilde; tilde]
    ([tilde; tilde] ++ w ++ rest)
  = [tilde; tilde] ++ rest.
Proof.
  intros Hw Hhead Hrest.
  pose proof (match_after_well_behaved [tilde; tilde]) as Hm.
  assert (Hfix : replace (match_after [tilde; tilde]) [tilde; tilde] rest
                 = rest).
  { apply replace_never_matches.
    apply (never_matches_of_adjacent is_tilde is_space); [|exact Hrest].
    intros t n. apply (match_after_adjacent [tilde] tilde). }
  destruct w as [|c w].
  - apply replace_never_matches.
    apply (never_matches_of_adjacent is_tilde is_space).
    + intros t n. apply (match_after_adjacent [tilde] tilde).
    + simpl app. fold (tilde_before_ws (tilde :: tilde :: rest)).
      unfold tilde_before_ws in *. rewrite !adjacent_cons, Hrest.
      destruct rest; simpl in *; [reflexivity | now rewrite Hhead].
  - assert (E : match_after [tilde; tilde] ([tilde; tilde] ++ (c :: w) ++ rest)
                = Some (2 + List.length (c :: w))%nat).
    { unfold match_after. simpl starts_with. simpl skipn.
      change (c :: w ++ rest) with ((c :: w) ++ rest).
      rewrite (count_ws_blank_app _ _ Hw Hhead). reflexivity. }
    rewrite (replace_hit _ _ _ _ Hm E). f_equal.
    replace (skipn (2 + List.length (c :: w))
               ([tilde; tilde] ++ (c :: w) ++ rest))
      with (skipn (List.length (c :: w)) ((c :: w) ++ rest))
      by reflexivity.
    now rewrite skipn_exact.
Qed.

Lemma no_star_adjacent s :
  forallb (fun c => negb (is_star c)) s = true ->
  star_before_ws s = false /\ ws_before_star s = false.
Proof.
  rewrite ws_before_star_adjacent. unfold star_before_ws.
  induction s as [|c s IH]; [split; reflexivity|]. cbn [forallb].
  intros H. apply andb_true_iff in H as [Hc Hs].
  apply negb_true_iff in Hc. destruct (IH Hs) as [IH1 IH2].
  rewrite !adjacent_cons, IH1, IH2, Hc. split; [reflexivity|].
  destruct s as [|d s]; [now rewrite andb_false_r|].
  cbn [forallb] in Hs. apply andb_true_iff in Hs as [Hd _].
  apply negb_true_iff in Hd. now rewrite Hd, andb_false_r.
Qed.

(** On a text without stars only the two tilde rules act. *)
Lemma cleanup_without_star s :
  forallb (fun c => negb (is_star c)) s = true ->
  cleanup s
  = replace (match_before [tilde; tilde]) [tilde; tilde]
      (replace (match_after [tilde; tilde]) [tilde; tilde] s).
Proof.
  intros H. destruct (no_star_adjacent s H) as [H1 H2].
  rewrite ws_before_star_adjacent in H2.
  unfold cleanup, cleanup_rules; simpl fold_left.
  rewrite (replace_never_matches (match_after (lit "**"))).
  2:{ apply (never_matches_of_adjacent is_star is_space); [|exact H1].
      intros t n. apply (match_after_adjacent [star] star). }
  rewrite (replace_never_matches (match_before (lit "**"))).
  2:{ apply (never_matches_of_adjacent is_space is_star); [|exact H2].
      intros t n. now apply (match_before_adjacent star [star]). }
  rewrite (replace_never_matches (match_after (lit "*"))).
  2:{ apply (never_matches_of_adjacent is_star is_space); [|exact H1].
      intros t n. apply (match_after_adjacent [] star). }
  rewrite (replace_never_matches (match_before (lit "*"))).
  2:{ apply (never_matches_of_adjacent is_space is_star); [|exact H2].
      intros t n. now apply (match_before_adjacent star []). }
  reflexivity.
Qed.

Lemma unmarked_no_star s :
  unmarked s = true -> forallb (fun c => negb (is_star c)) s = true.
Proof.
  unfold unmarked. rewrite !forallb_forall. intros H x Hx.
  specialize (H x Hx). now apply andb_true_iff in H as [H _].
Qed.

(** ** Further facts on the component *)

Section MoreComponentFacts.

Context {C : Collaborators}.

Lemma export_returns (ed : Editor) (w : World) (markdown : jsstring) :
  turndown (getHTML (tiptap w)) = Normal markdown ->
  fst (getMarkdownFromEditor (Some ed) w) = Normal (cleanup markdown).
Proof.
  intros H. rewrite getMarkdownFromEditor_some. unfold exported_text.
  now rewrite H.
Qed.

Lemma exported_world_document (w : World) :
  tiptap (exported_world w) = tiptap w.
Proof.
  unfold exported_world. destruct (turndown (getHTML (tiptap w))); reflexivity.
Qed.

Lemma exported_text_again (w : World) :
  exported_text (exported_world w) = exported_text w.
Proof.
  unfold exported_text. now rewrite exported_world_document.
Qed.

Lemma jsstring_eqb_eq (a b : jsstring) : jsstring_eqb a b = true <-> a = b.
Proof.
  unfold jsstring_eqb. destruct (list_eq_dec N.eq_dec a b); split; auto.
  discriminate.
Qed.

End MoreComponentFacts.

(** ** Further properties of the export *)

(** X1: the export changes nothing but white space: the characters of the
    serializer's output that are no white space come back all, in order,
    and the text never grows. *)
Theorem export_keeps_solid_characters {C : Collaborators}
  (ed : Editor) (w : World) (markdown : jsstring) :
  turndown (getHTML (tiptap w)) = Normal markdown ->
  exists out,
    fst (getMarkdownFromEditor (Some ed) w) = Normal out
    /\ filter (fun c => negb (is_space c)) out
       = filter (fun c => negb (is_space c)) markdown
    /\ (List.length out <= List.length markdown)%nat.
Proof.
  intros H. exists (cleanup markdown).
  pose proof (cleanup_deletes_ws markdown) as Hd.
  split; [now apply export_returns|].
  split; [now apply deletes_ws_solid_part | now apply deletes_ws_length].
Qed.

Lemma export_keeps_solid_characters_witness :
  turndown (Collaborators := plain)
    (getHTML (tiptap (holding plain (lit "a * b ~~ c")))) 
  = Normal (lit "a * b ~~ c")
  /\ exists out,
       fst (getMarkdownFromEditor (C := plain) (Some TheEditor)
              (holding plain (lit "a * b ~~ c"))) = Normal out
       /\ filter (fun c => negb (is_space c)) out
          = filter (fun c => negb (is_space c)) (lit "a * b ~~ c")
       /\ (List.length out <= List.length (lit "a * b ~~ c"))%nat.
Proof.
  split; [reflexivity|].
  exact (export_keeps_solid_characters (C := plain) TheEditor
           (holding plain (lit "a * b ~~ c")) (lit "a * b ~~ c") eq_refl).
Defined.

(** X2: a serializer output in which no white space touches a [*] or a
    [~] is exported as it is. *)
Theorem export_fixed_point {C : Collaborators}
  (ed : Editor) (w : World) (markdown : jsstring) :
  turndown (getHTML (tiptap w)) = Normal markdown ->
  star_before_ws markdown = false -> ws_before_star markdown = false ->
  tilde_before_ws markdown = false -> ws_before_tilde markdown = false ->
  fst (getMarkdownFromEditor (Some ed) w) = Normal markdown.
Proof.
  intros H H1 H2 H3 H4. rewrite (export_returns ed w markdown H).
  now rewrite cleanup_fixed.
Qed.

Lemma export_fixed_point_witness :
  star_before_ws (lit "(**b c**)-(~~d e~~)") = false
  /\ ws_before_star (lit "(**b c**)-(~~d e~~)") = false
  /\ tilde_before_ws (lit "(**b c**)-(~~d e~~)") = false
  /\ ws_before_tilde (lit "(**b c**)-(~~d e~~)") = false
  /\ fst (getMarkdownFromEditor (C := plain) (Some TheEditor)
            (holding plain (lit "(**b c**)-(~~d e~~)")))
     = Normal (lit "(**b c**)-(~~d e~~)").
Proof.
  repeat (split; [reflexivity|]).
  exact (export_fixed_point (C := plain) TheEditor
           (holding plain (lit "(**b c**)-(~~d e~~)"))
           (lit "(**b c**)-(~~d e~~)")
           eq_refl eq_refl eq_refl eq_refl eq_refl).
Defined.

(** X3: a serializer output without [*] and [~] is exported as it is. *)
Theorem export_unmarked_unchanged {C : Collaborators}
  (ed : Editor) (w : World) (markdown : jsstring) :
  turndown (getHTML (tiptap w)) = Normal markdown ->
  unmarked markdown = true ->
  fst (getMarkdownFromEditor (Some ed) w) = Normal markdown.
Proof.
  intros H Hun. rewrite (export_returns ed w markdown H).
  now rewrite cleanup_unmarked.
Qed.

Lemma export_unmarked_unchanged_witness :
  unmarked (lit "# Title - [ ] task, `code` and  spaces ") = true
  /\ fst (getMarkdownFromEditor (C := plain) (Some TheEditor)
            (holding plain (lit "# Title - [ ] task, `code` and  spaces ")))
     = Normal (lit "# Title - [ ] task, `code` and  spaces ").
Proof.
  split; [reflexivity|].
  exact (export_unmarked_unchanged (C := plain) TheEditor
           (holding plain (lit "# Title - [ ] task, `code` and  spaces "))
           (lit "# Title - [ ] task, `code` and  spaces ") eq_refl eq_refl).
Defined.

(** X4: in the text the export returns from the serializer's output, no
    white space stands next to a star, on either side. *)
Theorem export_no_space_at_star {C : Collaborators}
  (ed : Editor) (w : World) (markdown : jsstring) :
  turndown (getHTML (tiptap w)) = Normal markdown ->
  exists out,
    fst (getMarkdownFromEditor (Some ed) w) = Normal out
    /\ star_before_ws out = false /\ ws_before_star out = false.
Proof.
  intros H. exists (cleanup markdown). split; [now apply export_returns|].
  split; [apply cleanup_clears_after | apply cleanup_clears].
Qed.

Lemma export_no_space_at_star_witness :
  turndown (Collaborators := plain)
    (getHTML (tiptap (holding plain (lit "2 * 3 and ** x **"))))
  = Normal (lit "2 * 3 and ** x **")
  /\ exists out,
       fst (getMarkdownFromEditor (C := plain) (Some TheEditor)
              (holding plain (lit "2 * 3 and ** x **"))) = Normal out
       /\ star_before_ws out = false /\ ws_before_star out = false.
Proof.
  split; [reflexivity|].
  exact (export_no_space_at_star (C := plain) TheEditor
           (holding plain (lit "2 * 3 and ** x **"))
           (lit "2 * 3 and ** x **") eq_refl).
Defined.

(** X20: when the serializer returns, every contiguous piece of its
    output that holds no white space occurs in the exported text as
    well. *)
Theorem export_keeps_solid_pieces {C : Collaborators}
  (ed : Editor) (w : World) (markdown piece : jsstring) :
  turndown (getHTML (tiptap w)) = Normal markdown ->
  solid piece = true ->
  contains piece markdown ->
  exists out,
    fst (getMarkdownFromEditor (Some ed) w) = Normal out
    /\ contains piece out.
Proof.
  intros H Hsolid Hin. exists (cleanup markdown).
  split; [now apply export_returns|].
  apply (deletes_ws_contains _ markdown); [exact Hsolid | | exact Hin].
  apply cleanup_deletes_ws.
Qed.

Lemma export_keeps_solid_pieces_witness :
  solid (lit "**bold**") = true
  /\ contains (lit "**bold**") (lit "**bold** text")
  /\ exists out,
       fst (getMarkdownFromEditor (C := plain) (Some TheEditor)
              (holding plain (lit "**bold** text"))) = Normal out
       /\ contains (lit "**bold**") out.
Proof.
  assert (Hin : contains (lit "**bold**") (lit "**bold** text"))
    by (exists [], (lit " text"); reflexivity).
  split; [reflexivity|]. split; [exact Hin|].
  exact (export_keeps_solid_pieces (C := plain) TheEditor
           (holding plain (lit "**bold** text")) (lit "**bold** text")
           (lit "**bold**") eq_refl eq_refl Hin).
Defined.

(** ** Further properties of the line accessors *)

(** X5: when the serializer returns, no line that [getLine] gives for an
    index from 1 on begins with a star: a newline before a star does not
    survive the export. *)
Theorem later_lines_begin_without_star {C : Collaborators}
  (ed : Editor) (w : World) (markdown : jsstring) (n : Z) :
  turndown (getHTML (tiptap w)) = Normal markdown ->
  (1 <= n)%Z ->
  head_is_star (returned (fst (getLine (Some ed) n w))) = false.
Proof.
  intros H Hn. rewrite getLine_some. simpl. unfold exported_text.
  rewrite H. apply line_at_start; [apply cleanup_clears | exact Hn].
Qed.

Lemma later_lines_begin_without_star_witness :
  turndown (Collaborators := plain)
    (getHTML (tiptap (holding plain [97; 10; 42; 98; 42])))
  = Normal [97; 10; 42; 98; 42]
  /\ (1 <= 1)%Z
  /\ head_is_star
       (returned (fst (getLine (C := plain) (Some TheEditor) 1
                         (holding plain [97; 10; 42; 98; 42])))) = false.
Proof.
  split; [reflexivity|]. split; [lia|].
  apply (later_lines_begin_without_star (C := plain) TheEditor
           (holding plain [97; 10; 42; 98; 42]) [97; 10; 42; 98; 42] 1
           eq_refl).
  lia.
Defined.

(** X6: when the serializer returns, no line that [getLine] gives before
    the last one ends with a star: a newline after a star does not
    survive the export either. *)
Theorem earlier_lines_end_without_star {C : Collaborators}
  (ed : Editor) (w : World) (markdown : jsstring) (n : Z) :
  turndown (getHTML (tiptap w)) = Normal markdown ->
  (0 <= n)%Z ->
  (n + 1 < Z.of_nat (List.length
                       (split newline
                          (returned (fst (getContent (Some ed) w))))))%Z ->
  ends_with_star (returned (fst (getLine (Some ed) n w))) = false.
Proof.
  unfold getContent. rewrite getLine_some, getMarkdownFromEditor_some.
  simpl. unfold exported_text. intros H Hn Hlen. rewrite H in *.
  apply line_at_end; [apply cleanup_clears_after | exact Hn | exact Hlen].
Qed.

Lemma earlier_lines_end_without_star_witness :
  turndown (Collaborators := plain)
    (getHTML (tiptap (holding plain three_lines))) = Normal three_lines
  /\ ends_with_star
       (returned (fst (getLine (C := plain) (Some TheEditor) 0
                         (holding plain three_lines)))) = false.
Proof.
  split; [reflexivity|].
  apply (earlier_lines_end_without_star (C := plain) TheEditor
           (holding plain three_lines) three_lines 0 eq_refl);
    [lia | vm_compute; reflexivity].
Defined.

(** X7: whatever the editor, the index and the converters, [getLine]
    returns a string without a newline. *)
Theorem getLine_returns_one_line {C : Collaborators}
  (editor : option Editor) (n : Z) (w : World) :
  exists line,
    fst (getLine editor n w) = Normal line /\ has_newline line = false.
Proof.
  destruct editor as [ed|].
  - rewrite getLine_some. eexists; split; [reflexivity|].
    apply line_at_solid.
  - exists []. split; reflexivity.
Qed.

(** X8: the lines [getLine] gives for the indices below the number of
    lines, joined with newlines, are the text [getContent] gives. *)
Theorem lines_rejoin_to_content {C : Collaborators}
  (ed : Editor) (w : World) :
  let content := returned (fst (getContent (Some ed) w)) in
  unlines
    (List.map (fun i => returned (fst (getLine (Some ed) i w)))
       (indices (List.length (split newline content))))
  = content.
Proof.
  intros content. subst content. unfold getContent.
  rewrite getMarkdownFromEditor_some. cbn [fst returned].
  rewrite (map_ext _ (line_at (split newline (exported_text w))))
    by (intros i; now rewrite getLine_some).
  rewrite map_line_at_indices. apply unlines_split.
Qed.

(** X9: writing back the line just read, at an index inside the text,
    imports exactly the text the export gave: nothing of the markdown is
    changed, the document is rebuilt from it all the same. *)
Theorem setLine_of_getLine_reimports_export {C : Collaborators}
  (ed : Editor) (w : World) (n : Z) :
  (0 <= n < Z.of_nat (List.length (split newline (exported_text w))))%Z ->
  bind (getLine (Some ed) n) (fun line => setLine (Some ed) n line) w
  = (Normal tt,
     focused_world
       (imported_world (exported_text w)
          (exported_world (exported_world w)))).
Proof.
  intros Hn. unfold bind. rewrite getLine_some, setLine_some.
  rewrite exported_text_again, set_inside by assumption.
  rewrite join_of_list. unfold line_at.
  destruct (n <? 0)%Z eqn:E; [lia|].
  rewrite with_line_same by lia. now rewrite unlines_split.
Qed.

Lemma setLine_of_getLine_reimports_export_witness :
  (0 <= 1 < Z.of_nat (List.length
       (split newline (exported_text (holding plain three_lines)))))%Z
  /\ tiptap (snd (bind (getLine (C := plain) (Some TheEditor) 1)
                    (fun line => setLine (Some TheEditor) 1 line)
                    (holding plain three_lines)))
     = three_lines.
Proof.
  assert (H : (0 <= 1 < Z.of_nat (List.length
       (split newline (exported_text (holding plain three_lines)))))%Z)
    by (vm_compute; split; [discriminate | reflexivity]).
  split; [exact H|].
  rewrite (setLine_of_getLine_reimports_export (C := plain) TheEditor
             (holding plain three_lines) 1 H).
  reflexivity.
Defined.

(** X10: a negative index reads as the empty string, and [setLine] with
    a negative index drops [text]: it imports the export unchanged. *)
Theorem negative_line_index {C : Collaborators}
  (ed : Editor) (w : World) (n : Z) (text : jsstring) :
  (n < 0)%Z ->
  getLine (Some ed) n w = (Normal [], exported_world w)
  /\ setLine (Some ed) n text w
     = (Normal tt,
        focused_world (imported_world (exported_text w) (exported_world w))).
Proof.
  intros Hn. rewrite getLine_some, setLine_some.
  unfold line_at, set. apply Z.ltb_lt in Hn. rewrite Hn.
  now rewrite join_of_list, unlines_split.
Qed.

Lemma negative_line_index_witness :
  (-1 < 0)%Z
  /\ getLine (C := plain) (Some TheEditor) (-1) (holding plain three_lines)
     = (Normal [], exported_world (holding plain three_lines))
  /\ tiptap (snd (setLine (C := plain) (Some TheEditor) (-1) (lit "lost")
                    (holding plain three_lines)))
     = three_lines.
Proof.
  assert (H : (-1 < 0)%Z) by lia.
  split; [exact H|].
  pose proof (negative_line_index (C := plain) TheEditor
                (holding plain three_lines) (-1) (lit "lost") H)
    as (Hget & Hset).
  split; [exact Hget|]. rewrite Hset. reflexivity.
Defined.



(** ** Further properties of the handle and of the component *)

(** X12: the ten actions of the handle that build no string never
    throw, with or without an editor and whatever the converters do
    (reads and commands of TipTap completing normally).  The other two,
    [insertText] and [setLine], concatenate and join strings. *)
Theorem handle_never_throws {C : Collaborators} (editor : option Editor)
  (w : World) (text : jsstring) (n startPos a b : Z) (endPos : option Z) :
  completes (focus editor) w
  /\ completes (scrollToCursor editor) w
  /\ completes (removeText editor a b) w
  /\ completes (setContent editor text) w
  /\ completes (getContent editor) w
  /\ completes (getSelectedContent editor) w
  /\ completes (getCursorPosition editor) w
  /\ completes (setCursorPosition editor startPos endPos) w
  /\ completes (getCursorLineNumber editor) w
  /\ completes (getLine editor n) w.
Proof.
  unfold completes, setContent, getContent. destruct editor as [ed|].
  - rewrite getLine_some, setMarkdownToEditor_some,
      getMarkdownFromEditor_some.
    repeat split; eexists; eexists; reflexivity.
  - repeat split; eexists; eexists; reflexivity.
Qed.

(** X13: the getters of the handle leave the document and the selection
    as they are; the three that read the selection touch nothing at all. *)
Theorem getters_keep_document {C : Collaborators} (editor : option Editor)
  (w : World) (n : Z) :
  keeps_document (getContent editor) w
  /\ keeps_document (getLine editor n) w
  /\ snd (getSelectedContent editor w) = w
  /\ snd (getCursorPosition editor w) = w
  /\ snd (getCursorLineNumber editor w) = w.
Proof.
  unfold keeps_document, getContent. destruct editor as [ed|].
  - rewrite getLine_some, getMarkdownFromEditor_some. simpl.
    rewrite exported_world_document. repeat split.
  - repeat split.
Qed.

(** X14: an [initialContent] with white space before a star never equals
    what the export returns from the serializer; the effect then always
    imports it, whatever the editor holds. *)
Theorem initialContent_with_spaced_star_is_imported {C : Collaborators}
  (ed : Editor) (w : World) (content markdown : jsstring) :
  ws_before_star content = true ->
  turndown (getHTML (tiptap w)) = Normal markdown ->
  initialContent_effect (Some ed) (Some content) w
  = (Normal tt, imported_world content (exported_world w)).
Proof.
  intros Hc Hmd. unfold initialContent_effect, bind.
  rewrite getMarkdownFromEditor_some.
  destruct (jsstring_eqb (exported_text w) content) eqn:E.
  - apply jsstring_eqb_eq in E. unfold exported_text in E.
    rewrite Hmd in E. pose proof (cleanup_clears markdown) as Hclear.
    rewrite E, Hc in Hclear. discriminate.
  - apply setMarkdownToEditor_some.
Qed.

Lemma initialContent_with_spaced_star_is_imported_witness :
  ws_before_star (lit "some*italic* text and *more*") = true
  /\ tiptap (snd (initialContent_effect (C := plain) (Some TheEditor)
                    (Some (lit "some*italic* text and *more*"))
                    (holding plain (lit "some*italic* text and*more*"))))
     = lit "some*italic* text and *more*".
Proof.
  split; [reflexivity|].
  rewrite (initialContent_with_spaced_star_is_imported (C := plain)
             TheEditor (holding plain (lit "some*italic* text and*more*"))
             (lit "some*italic* text and *more*")
             (lit "some*italic* text and*more*") eq_refl eq_refl).
  reflexivity.
Defined.

(** X15: the text [onUpdate] has just reported, given back as
    [initialContent], is not imported again: the effect exports once
    more, finds the same text and leaves the document as [onUpdate] found
    it. *)
Theorem echoed_content_is_not_reimported {C : Collaborators}
  (ed : Editor) (w : World) :
  let w1 := snd (onUpdate ed w) in
  let reported := last (content_changes (trace w1)) [] in
  initialContent_effect (Some ed) (Some reported) w1
  = (Normal tt, exported_world w1)
  /\ tiptap (exported_world w1) = tiptap w.
Proof.
  intros w1 reported.
  assert (Hw1 : w1 = emit (ContentChange (exported_text w)) (exported_world w))
    by (unfold w1, onUpdate, bind; now rewrite getMarkdownFromEditor_some).
  assert (Hdoc : tiptap w1 = tiptap w)
    by (rewrite Hw1; simpl; apply exported_world_document).
  assert (Htext : exported_text w1 = exported_text w)
    by (unfold exported_text; now rewrite Hdoc).
  assert (Hrep : reported = exported_text w).
  { unfold reported. rewrite Hw1. simpl trace.
    rewrite content_changes_app. simpl. apply last_last. }
  split; [|now rewrite exported_world_document].
  unfold initialContent_effect, bind. rewrite getMarkdownFromEditor_some.
  rewrite Hrep, Htext. now rewrite (proj2 (jsstring_eqb_eq _ _) eq_refl).
Qed.

(** ** Properties of the rules added to turndown *)

(** X16: for a content that is not blank, the italic rule puts the stars
    tight around the content without its leading and trailing white
    space; a blank content is returned as it is, without stars. *)
Theorem italic_replacement_is_tight (content : jsstring) :
  blank content = false ->
  exists before text after,
    content = before ++ text ++ after
    /\ blank before = true /\ blank after = true
    /\ head_is_space text = false /\ ends_with_space text = false
    /\ italic_replacement content = star :: text ++ [star].
Proof.
  intros Hb. destruct (trim_split content) as (w1 & w2 & Hs & Hw1 & Hw2).
  exists w1, (trim content), w2.
  repeat split; auto using trim_head, trim_tail.
  unfold italic_replacement. destruct (trim content) eqn:E; [|reflexivity].
  apply trim_nil_blank in E. congruence.
Qed.

Lemma italic_replacement_is_tight_witness :
  blank (lit "  a b ") = false
  /\ exists before text after,
       lit "  a b " = before ++ text ++ after
       /\ blank before = true /\ blank after = true
       /\ head_is_space text = false /\ ends_with_space text = false
       /\ italic_replacement (lit "  a b ") = star :: text ++ [star].
Proof.
  split; [reflexivity|].
  exact (italic_replacement_is_tight (lit "  a b ") eq_refl).
Defined.

(** X17: what the italic rule makes of a content without [*] and [~]
    passes the substitutions of the export unchanged. *)
Theorem italic_replacement_survives_cleanup (content : jsstring) :
  unmarked content = true ->
  cleanup (italic_replacement content) = italic_replacement content.
Proof.
  intros Hun. unfold italic_replacement.
  pose proof (trim_unmarked _ Hun) as Ht.
  pose proof (trim_head content) as Hhead.
  pose proof (trim_tail content) as Htail.
  destruct (trim content) as [|c t] eqn:E; [now apply cleanup_unmarked|].
  destruct (unmarked_adjacent _ Ht) as (A1 & A2 & A3 & A4).
  rewrite ws_before_star_adjacent in A2.
  destruct (unmarked_head _ (unmarked_rev _ Ht)) as [R1 R2].
  destruct (unmarked_head _ Ht) as [F1 F2].
  unfold star_before_ws, tilde_before_ws, ws_before_tilde in *.
  unfold ends_with_space in Htail.
  change (head_is_space (c :: t)) with (is_space c) in Hhead.
  change (head_is_space (rev (c :: t)))
    with (head_sat is_space (rev (c :: t))) in Htail.
  change (lit "*" ++ (c :: t) ++ lit "*") with ([star] ++ (c :: t) ++ [star]).
  apply cleanup_fixed; rewrite ?ws_before_star_adjacent;
    unfold star_before_ws, tilde_before_ws, ws_before_tilde;
    rewrite !adjacent_app, ?A1, ?A2, ?A3, ?A4, ?R1, ?R2, ?Htail,
      ?head_sat_app, ?Hhead; reflexivity.
Qed.

Lemma italic_replacement_survives_cleanup_witness :
  unmarked (lit " a  b ") = true
  /\ cleanup (italic_replacement (lit " a  b "))
     = italic_replacement (lit " a  b ").
Proof.
  split; [reflexivity|].
  exact (italic_replacement_survives_cleanup (lit " a  b ") eq_refl).
Defined.

(** X18: of what the strikethrough rule makes of a content without [*]
    and [~], the export strips the padding: it returns the tildes tight
    around the trimmed content. *)
Theorem strikethrough_replacement_is_trimmed (content : jsstring) :
  unmarked content = true ->
  cleanup (strikethrough_replacement content)
  = strikethrough_replacement (trim content).
Proof.
  intros Hun. unfold strikethrough_replacement.
  change (lit "~~") with [tilde; tilde].
  rewrite cleanup_without_star.
  2:{ rewrite !forallb_app, (unmarked_no_star _ Hun). reflexivity. }
  pose proof (trim_unmarked _ Hun) as Ht.
  pose proof (trim_head content) as Hhead.
  pose proof (trim_tail content) as Htail.
  destruct (trim_split content) as (w1 & w2 & Hs & Hw1 & Hw2).
  destruct (trim content) as [|c t] eqn:E.
  - assert (Hb : blank content = true)
      by (rewrite Hs, !blank_app, Hw1, Hw2; reflexivity).
    rewrite (tilde_rule_opens content [tilde; tilde] Hb eq_refl eq_refl).
    reflexivity.
  - rewrite Hs at 1. rewrite <- !app_assoc.
    rewrite (tilde_rule_opens w1 ((c :: t) ++ w2 ++ [tilde; tilde]) Hw1).
    + change ([tilde; tilde] ++ (c :: t) ++ w2 ++ [tilde; tilde])
        with (tilde :: tilde :: ((c :: t) ++ w2 ++ [tilde; tilde])).
      rewrite !replace_miss by (now apply match_before_solid_head).
      rewrite (tilde_rule_passes (c :: t)) by assumption.
      now rewrite (tilde_rule_closes w2 Hw2).
    + exact Hhead.
    + destruct (unmarked_adjacent _ Ht) as (_ & _ & A3 & _).
      destruct (unmarked_head _ (unmarked_rev _ Ht)) as [_ R2].
      unfold tilde_before_ws in *.
      rewrite !adjacent_app, A3, R2, (blank_not_tilde _ _ Hw2).
      rewrite (blank_head_tilde (rev w2)) by (now apply blank_rev).
      reflexivity.
Qed.

Lemma strikethrough_replacement_is_trimmed_witness :
  unmarked (lit "  gone by  ") = true
  /\ cleanup (strikethrough_replacement (lit "  gone by  "))
     = lit "~~gone by~~".
Proof.
  split; [reflexivity|].
  rewrite (strikethrough_replacement_is_trimmed (lit "  gone by  ") eq_refl).
  reflexivity.
Defined.

(** X19: the task rule gives one line, the marker [- [x] ] or [- [ ] ]
    before the trimmed content, closed by a newline; when the content has
    neither [*] nor [~], the export leaves the item as it is. *)
Theorem taskListItems_replacement_is_one_line
  (content : jsstring) (checked : bool) :
  has_newline content = false ->
  unmarked content = true ->
  split newline (taskListItems_replacement content checked)
  = [lit (if checked then "- [x] " else "- [ ] ") ++ trim content; []]
  /\ cleanup (taskListItems_replacement content checked)
     = taskListItems_replacement content checked.
Proof.
  intros Hnl Hun. pose proof (trim_has_newline _ Hnl) as Hnl'.
  pose proof (trim_unmarked _ Hun) as Hun'. split.
  - assert (Hshape : taskListItems_replacement content checked
                     = (lit (if checked then "- [x] " else "- [ ] ")
                        ++ trim content) ++ newline :: [])
      by (unfold taskListItems_replacement; destruct checked;
          now rewrite <- app_assoc).
    rewrite Hshape, split_app. simpl (split newline []).
    rewrite split_solid; [reflexivity|].
    unfold has_newline in *. rewrite existsb_app.
    apply orb_false_iff. split; [now destruct checked | exact Hnl'].
  - apply cleanup_unmarked. unfold taskListItems_replacement.
    rewrite !unmarked_app, Hun'. now destruct checked.
Qed.

Lemma taskListItems_replacement_is_one_line_witness :
  has_newline (lit " buy milk ") = false
  /\ unmarked (lit " buy milk ") = true
  /\ split newline (taskListItems_replacement (lit " buy milk ") true)
     = [lit "- [x] buy milk"; []].
Proof.
  split; [reflexivity|]. split; [reflexivity|].
  exact (proj1 (taskListItems_replacement_is_one_line (lit " buy milk ")
                  true eq_refl eq_refl)).
Defined.
